(** * bandit-exp: the bandit algorithms of [main.py] and the loop that runs them

    A shallow embedding of the classes [Arms], [BanditAlgorithm], [EGreedy],
    [Random], [ThomsonSampling], [UCB1], [UCB1Tuned] and of the "Run" loop.

    - Python [int] is [Z]; list indices are [Z] as well, negative ones
      counting from the end of the list as Python does.
    - Python [float] is a rational [Q], and every float operation is the
      exact operation followed by a rounding [rnd] that is only known to be
      monotone and to keep the multiples of 2^-20 below 2^32 (binary64 does,
      and so does exact arithmetic).  [math.log] and [math.sqrt] are
      parameters as well.
    - exceptions are an error monad that keeps the state reached when the
      exception is raised: an object mutated before a failure stays mutated.
    - the process-wide generators of [random] and [numpy.random] are one
      stream of draws and a cursor into it. *)

From Stdlib Require Import ZArith QArith Qround List Bool Lia Lqa.
Import ListNotations.
Open Scope Z_scope.

(** ** Floats *)

Class FloatModel : Type := {
  rnd : Q -> Q;
  rnd_mono : forall x y : Q, (x <= y)%Q -> (rnd x <= rnd y)%Q;
  rnd_exact : forall k : Z, 0 <= k <= 2 ^ 52 ->
    (rnd (k # 1048576) == k # 1048576)%Q;
  math_log : Z -> Q;
  math_log_nonneg : forall n : Z, 1 <= n -> (0 <= math_log n)%Q;
  math_sqrt : Q -> Q
}.

(** [a < b] and [a >= b] on floats, as booleans. *)
Definition Qltb (a b : Q) : bool := negb (Qle_bool b a).
Definition Qgeb (a b : Q) : bool := Qle_bool b a.

(** ** Exceptions *)

Inductive exn : Type :=
| AssertionError | IndexError | ValueError | ZeroDivisionError.

Inductive outcome (A : Type) : Type :=
| Ok (a : A)
| Raise (e : exn).
Arguments Ok {A} a.
Arguments Raise {A} e.

Definition obind {A B} (o : outcome A) (k : A -> outcome B) : outcome B :=
  match o with Ok a => k a | Raise e => Raise e end.

(** A computation over a mutable state [S]: the state comes back also when
    an exception is raised. *)
Definition M (S A : Type) : Type := S -> outcome A * S.

Definition ret {S A} (a : A) : M S A := fun s => (Ok a, s).
Definition raise {S A} (e : exn) : M S A := fun s => (Raise e, s).
Definition bind {S A B} (m : M S A) (k : A -> M S B) : M S B :=
  fun s => match m s with
           | (Ok a, s') => k a s'
           | (Raise e, s') => (Raise e, s')
           end.
Definition lift {S A} (o : outcome A) : M S A := fun s => (o, s).

Declare Scope py_scope.
Delimit Scope py_scope with py.
Notation "x <- m ;; k" := (bind m (fun x => k))
  (at level 61, m at next level, right associativity) : py_scope.
Notation "m ;; k" := (bind m (fun _ => k))
  (at level 61, right associativity) : py_scope.
Notation "x <~ o ;; k" := (obind o (fun x => k))
  (at level 61, o at next level, right associativity) : py_scope.
Open Scope py_scope.

(** ** Python lists *)

Definition len {A} (l : list A) : Z := Z.of_nat (length l).

(** [range(n)]: empty when [n <= 0]. *)
Definition range (n : Z) : list Z := map Z.of_nat (seq 0 (Z.to_nat n)).

(** The position an index denotes, [IndexError] outside [-len, len). *)
Definition position {A} (l : list A) (i : Z) : outcome nat :=
  if (0 <=? i) && (i <? len l) then Ok (Z.to_nat i)
  else if (- len l <=? i) && (i <? 0) then Ok (Z.to_nat (len l + i))
  else Raise IndexError.

Fixpoint replace {A} (l : list A) (k : nat) (v : A) : list A :=
  match l, k with
  | [], _ => []
  | _ :: t, O => v :: t
  | h :: t, S k' => h :: replace t k' v
  end.

Definition getitem {A} (l : list A) (i : Z) : outcome A :=
  k <~ position l i ;;
  match nth_error l k with Some a => Ok a | None => Raise IndexError end.

Definition setitem {A} (l : list A) (i : Z) (v : A) : outcome (list A) :=
  k <~ position l i ;; Ok (replace l k v).

(** [sum] of a list of ints. *)
Definition py_sum (l : list Z) : Z := fold_left Z.add l 0.

Section Floats.
Context {FM : FloatModel}.

Definition fadd (x y : Q) : Q := rnd (x + y).
Definition fsub (x y : Q) : Q := rnd (x - y).
Definition fmul (x y : Q) : Q := rnd (x * y).

(** [x / y] on floats, or on a float and an int. *)
Definition fdiv (x y : Q) : outcome Q :=
  if Qeq_bool y 0 then Raise ZeroDivisionError else Ok (rnd (x / y)).

(** [a / b] on ints: true division. *)
Definition truediv (a b : Z) : outcome Q :=
  if b =? 0 then Raise ZeroDivisionError
  else Ok (rnd (inject_Z a / inject_Z b)).

(** [math.log(n)] of an int, [math.sqrt(x)] of a float. *)
Definition log (n : Z) : outcome Q :=
  if n <=? 0 then Raise ValueError else Ok (math_log n).
Definition sqrt (x : Q) : outcome Q :=
  if Qltb x 0 then Raise ValueError else Ok (math_sqrt x).


(** [max] of a list of floats: the first of the largest. *)
Definition py_max (l : list Q) : outcome Q :=
  match l with
  | [] => Raise ValueError
  | x :: t => Ok (fold_left (fun m y => if Qltb m y then y else m) t x)
  end.

(** [min(a, b)]: [b] only when it is smaller. *)
Definition py_min (a b : Q) : Q := if Qltb b a then b else a.

End Floats.

(** ** The random generators *)

Record rng : Type := mkRng { stream : nat -> Q; cursor : nat }.

(** The fractional part: a number of [[0, 1)]. *)
Definition frac (q : Q) : Q := (q - inject_Z (Qfloor q))%Q.

(** One draw: the next number of the stream, brought into [[0, 1)]. *)
Definition draw : M rng Q :=
  fun g => (Ok (frac (stream g (cursor g))), mkRng (stream g) (S (cursor g))).

(** [random.random()]. *)
Definition random_random : M rng Q := draw.

(** [random.randrange(n)]: an int of [[0, n)], [ValueError] on an empty
    range. *)
Definition random_randrange (n : Z) : M rng Z :=
  if n <=? 0 then raise ValueError
  else u <- draw ;; ret (Qfloor (u * inject_Z n)).

(** [random.choice(l)]: [IndexError] on an empty list. *)
Definition random_choice {A} (l : list A) : M rng A :=
  if len l =? 0 then raise IndexError
  else u <- draw ;; lift (getitem l (Qfloor (u * inject_Z (len l)))).

(** [numpy.random.beta(a, b)]: [ValueError] unless [a > 0] and [b > 0];
    the sample is whatever the stream gives. *)
Definition numpy_random_beta (a b : Q) : M rng Q :=
  if Qle_bool a 0 || Qle_bool b 0 then raise ValueError else draw.

(** ** class Arms *)

Record Arms : Type := mkArms { ps : list Q }.

Definition Arms_num (arms : Arms) : Z := len (ps arms).

(** [Arms.choose]: whether the displayed arm is clicked. *)
Definition Arms_choose (arms : Arms) (i : Z) : M rng bool :=
  if (0 <=? i) && (i <? Arms_num arms) then
    p <- lift (getitem (ps arms) i) ;;
    u <- random_random ;;
    ret (Qltb u p)
  else raise AssertionError.

(** ** class BanditAlgorithm and its subclasses *)

Inductive Policy : Type :=
| EGreedy (epsilon : Q)
| Random
| ThomsonSampling (alpha beta : Q)
| UCB1
| UCB1Tuned.

Record BanditAlgorithm : Type := mkAlg {
  num : Z;
  displayed : list Z;
  clicked : list Z;
  ctr : list Q;
  policy : Policy
}.

(** [[x] * n]. *)
Definition times {A} (x : A) (n : Z) : list A := repeat x (Z.to_nat n).

(** [BanditAlgorithm.__init__], with the subclass's own fields. *)
Definition BanditAlgorithm_init (n : Z) (p : Policy) : BanditAlgorithm :=
  mkAlg n (times 0 n) (times 0 n) (times 0%Q n) p.

Definition EGreedy_init (n : Z) (epsilon : Q) : outcome BanditAlgorithm :=
  Ok (BanditAlgorithm_init n (EGreedy epsilon)).

Definition Random_init (n : Z) : outcome BanditAlgorithm :=
  Ok (BanditAlgorithm_init n Random).

Definition ThomsonSampling_init (n : Z) (alpha beta : Q)
  : outcome BanditAlgorithm :=
  if Qltb 0 alpha then
    if Qltb 0 beta then Ok (BanditAlgorithm_init n (ThomsonSampling alpha beta))
    else Raise AssertionError
  else Raise AssertionError.

Definition UCB1_init (n : Z) : outcome BanditAlgorithm :=
  Ok (BanditAlgorithm_init n UCB1).

Definition UCB1Tuned_init (n : Z) : outcome BanditAlgorithm :=
  Ok (BanditAlgorithm_init n UCB1Tuned).

Section Algorithms.
Context {FM : FloatModel}.

(** *** choose *)

(** [[i for i in range(self.num) if self.ctr[i] >= maxctr]], over the
    indices that are left. *)
Fixpoint maxarms_of (c : list Q) (maxctr : Q) (idx : list Z)
  : outcome (list Z) :=
  match idx with
  | [] => Ok []
  | i :: idx' =>
      x <~ getitem c i ;;
      rest <~ maxarms_of c maxctr idx' ;;
      Ok (if Qgeb x maxctr then i :: rest else rest)
  end.

Definition EGreedy_choose (self : BanditAlgorithm) (epsilon : Q) : M rng Z :=
  u <- random_random ;;
  if Qltb epsilon u then
    random_randrange (num self)
  else
    maxctr <- lift (py_max (ctr self)) ;;
    maxarms <- lift (maxarms_of (ctr self) maxctr (range (num self))) ;;
    random_choice maxarms.

Definition Random_choose (self : BanditAlgorithm) : M rng Z :=
  random_randrange (num self).

(** The loop of [ThomsonSampling.choose] over the indices that are left. *)
Fixpoint ThomsonSampling_loop (self : BanditAlgorithm) (alpha beta : Q)
    (idx : list Z) (max_theta : Q) (max_arm_index : Z) : M rng Z :=
  match idx with
  | [] => ret max_arm_index
  | i :: idx' =>
      c <- lift (getitem (clicked self) i) ;;
      d <- lift (getitem (displayed self) i) ;;
      c' <- lift (getitem (clicked self) i) ;;
      theta <- numpy_random_beta
                 (fadd alpha (inject_Z c))
                 (fsub (fadd beta (inject_Z d)) (inject_Z c')) ;;
      if Qltb max_theta theta
      then ThomsonSampling_loop self alpha beta idx' theta i
      else ThomsonSampling_loop self alpha beta idx' max_theta max_arm_index
  end.

Definition ThomsonSampling_choose (self : BanditAlgorithm) (alpha beta : Q)
  : M rng Z :=
  ThomsonSampling_loop self alpha beta (range (num self)) 0%Q 0.

(** The first loop of [UCB1.choose] and [UCB1Tuned.choose]: the first index
    never displayed, if there is one. *)
Fixpoint first_undisplayed (self : BanditAlgorithm) (idx : list Z)
  : outcome (option Z) :=
  match idx with
  | [] => Ok None
  | i :: idx' =>
      d <~ getitem (displayed self) i ;;
      if d =? 0 then Ok (Some i) else first_undisplayed self idx'
  end.

(** The second loop of both, over the score [theta] of an index. *)
Fixpoint argmax_loop (theta_of : Z -> outcome Q) (idx : list Z)
    (max_theta : Q) (max_arm_index : Z) : outcome Z :=
  match idx with
  | [] => Ok max_arm_index
  | i :: idx' =>
      theta <~ theta_of i ;;
      if Qltb max_theta theta
      then argmax_loop theta_of idx' theta i
      else argmax_loop theta_of idx' max_theta max_arm_index
  end.

Definition UCB1_theta (self : BanditAlgorithm) (n : Z) (i : Z) : outcome Q :=
  c <~ getitem (clicked self) i ;;
  d <~ getitem (displayed self) i ;;
  mean <~ truediv c d ;;
  l <~ log n ;;
  d' <~ getitem (displayed self) i ;;
  x <~ fdiv (fmul 2 l) (inject_Z d') ;;
  r <~ sqrt x ;;
  Ok (fadd mean r).

Definition UCB1_choose (self : BanditAlgorithm) : outcome Z :=
  let n := py_sum (displayed self) in
  cold <~ first_undisplayed self (range (num self)) ;;
  match cold with
  | Some i => Ok i
  | None => argmax_loop (UCB1_theta self n) (range (num self)) 0%Q 0
  end.

Definition UCB1Tuned_theta (self : BanditAlgorithm) (n : Z) (i : Z)
  : outcome Q :=
  c <~ getitem (clicked self) i ;;
  d <~ getitem (displayed self) i ;;
  c' <~ getitem (clicked self) i ;;
  d' <~ getitem (displayed self) i ;;
  v <~ truediv (c * (d - c')) (Z.max 1 d' ^ 2) ;;
  l <~ log n ;;
  d2 <~ getitem (displayed self) i ;;
  x <~ fdiv (fmul 2 l) (inject_Z d2) ;;
  r <~ sqrt x ;;
  let variance := fadd v r in
  c2 <~ getitem (clicked self) i ;;
  d3 <~ getitem (displayed self) i ;;
  mean <~ truediv c2 d3 ;;
  l' <~ log n ;;
  d4 <~ getitem (displayed self) i ;;
  y <~ fdiv l' (inject_Z d4) ;;
  r' <~ sqrt y ;;
  Ok (fadd mean (py_min r' variance)).

Definition UCB1Tuned_choose (self : BanditAlgorithm) : outcome Z :=
  let n := py_sum (displayed self) in
  cold <~ first_undisplayed self (range (num self)) ;;
  match cold with
  | Some i => Ok i
  | None => argmax_loop (UCB1Tuned_theta self n) (range (num self)) 0%Q 0
  end.

(** [self.choose()], by the class of [self]. *)
Definition choose (self : BanditAlgorithm) : M rng Z :=
  match policy self with
  | EGreedy epsilon => EGreedy_choose self epsilon
  | Random => Random_choose self
  | ThomsonSampling alpha beta => ThomsonSampling_choose self alpha beta
  | UCB1 => lift (UCB1_choose self)
  | UCB1Tuned => lift (UCB1Tuned_choose self)
  end.

(** *** display, reward, ctr_overall *)

(** What the loop works on: one algorithm object and the generators. *)
Record world : Type := mkWorld { alg : BanditAlgorithm; gen : rng }.

(** Run a computation of the generators in the world. *)
Definition with_gen {A} (m : M rng A) : M world A :=
  fun w => let (r, g) := m (gen w) in (r, mkWorld (alg w) g).

Definition set_displayed (a : BanditAlgorithm) (l : list Z) :=
  mkAlg (num a) l (clicked a) (ctr a) (policy a).
Definition set_clicked (a : BanditAlgorithm) (l : list Z) :=
  mkAlg (num a) (displayed a) l (ctr a) (policy a).
Definition set_ctr (a : BanditAlgorithm) (l : list Q) :=
  mkAlg (num a) (displayed a) (clicked a) l (policy a).

(** [self.f[i]] and [self.f[i] = v] for a list field [f] of [self]. *)
Definition load {A} (f : BanditAlgorithm -> list A) (i : Z) : M world A :=
  fun w => (getitem (f (alg w)) i, w).

Definition store {A} (f : BanditAlgorithm -> list A)
    (set : BanditAlgorithm -> list A -> BanditAlgorithm) (i : Z) (v : A)
  : M world unit :=
  fun w => match setitem (f (alg w)) i v with
           | Ok l => (Ok tt, mkWorld (set (alg w) l) (gen w))
           | Raise e => (Raise e, w)
           end.

(** [self.ctr[i] = self.clicked[i] / self.displayed[i]]. *)
Definition update_ctr (i : Z) : M world unit :=
  c <- load clicked i ;;
  d <- load displayed i ;;
  q <- lift (truediv c d) ;;
  store ctr set_ctr i q.

Definition display : M world Z :=
  i <- (fun w => with_gen (choose (alg w)) w) ;;
  d <- load displayed i ;;
  store displayed set_displayed i (d + 1) ;;
  update_ctr i ;;
  ret i.

Definition reward (i : Z) (was_clicked : bool) : M world unit :=
  if was_clicked then
    c <- load clicked i ;;
    store clicked set_clicked i (c + 1) ;;
    update_ctr i
  else ret tt.

Definition ctr_overall : M world Q :=
  fun w =>
    let sum_displayed := py_sum (displayed (alg w)) in
    let sum_clicked := py_sum (clicked (alg w)) in
    if sum_displayed =? 0 then (Ok 0%Q, w)
    else (truediv sum_clicked sum_displayed, w).

(** ** The "Run" loop *)

(** [l = []; for _ in range(n): l.append(body)]. *)
Fixpoint collect {S A} (n : nat) (body : M S A) : M S (list A) :=
  match n with
  | O => ret []
  | S n' => x <- body ;; rest <- collect n' body ;; ret (x :: rest)
  end.

(** One time step. *)
Definition step (arms : Arms) : M world Q :=
  i <- display ;;
  was_clicked <- with_gen (Arms_choose arms i) ;;
  reward i was_clicked ;;
  ctr_overall.

(** One try: [maxtime] steps. *)
Definition trial (arms : Arms) (maxtime : Z) : M world (list Q) :=
  collect (Z.to_nat maxtime) (step arms).

(** [sum(tries[j][t] for j in range(num_tries))], over the [j] that are
    left and the sum so far. *)
Fixpoint column_sum (tries : list (list Q)) (t : Z) (js : list Z) (acc : Q)
  : outcome Q :=
  match js with
  | [] => Ok acc
  | j :: js' =>
      row <~ getitem tries j ;;
      x <~ getitem row t ;;
      column_sum tries t js' (fadd acc x)
  end.

(** The average of the tries at time [t], in percent. *)
Definition average (tries : list (list Q)) (num_tries : Z) (t : Z)
  : outcome Q :=
  s <~ column_sum tries t (range num_tries) 0%Q ;;
  m <~ fdiv s (inject_Z num_tries) ;;
  Ok (fmul m 100).

Fixpoint averages (tries : list (list Q)) (num_tries : Z) (ts : list Z)
  : outcome (list Q) :=
  match ts with
  | [] => Ok []
  | t :: ts' =>
      x <~ average tries num_tries t ;;
      rest <~ averages tries num_tries ts' ;;
      Ok (x :: rest)
  end.

(** The body of [for alg_index, alg in enumerate(algs)], up to [table.append]:
    the tries of one algorithm and their averaged series. *)
Definition tries_of (arms : Arms) (maxtime num_tries : Z)
  : M world (list (list Q)) :=
  collect (Z.to_nat num_tries) (trial arms maxtime).

Definition run_alg (arms : Arms) (maxtime num_tries : Z) : M world (list Q) :=
  tries <- tries_of arms maxtime num_tries ;;
  lift (averages tries num_tries (range maxtime)).

(** The whole loop: the table of all algorithms. *)
Fixpoint run (arms : Arms) (maxtime num_tries : Z)
    (algs : list BanditAlgorithm) : M rng (list (list Q)) :=
  match algs with
  | [] => ret []
  | a :: algs' =>
      fun g =>
        match run_alg arms maxtime num_tries (mkWorld a g) with
        | (Ok ctrs, w) =>
            (rest <- run arms maxtime num_tries algs' ;; ret (ctrs :: rest))
              (gen w)
        | (Raise e, w) => (Raise e, gen w)
        end
  end.

End Algorithms.

(** ** An instance of the float model

    Exact rational arithmetic, with integer-valued stand-ins for [math.log]
    and [math.sqrt]: the laws of [FloatModel] can be met. *)

#[export] Instance exact_float : FloatModel.
Proof.
  refine {| rnd := fun q => q;
            math_log := fun n => inject_Z (Z.log2 n);
            math_sqrt := fun x => inject_Z (Z.sqrt (Qfloor x)) |}.
  - intros x y H; exact H.
  - intros k _; reflexivity.
  - intros n _. change 0%Q with (inject_Z 0). rewrite <- Zle_Qle.
    apply Z.log2_nonneg.
Defined.

(** A stream of draws for the examples: 0, 1/7, 2/7, ... *)
Definition sevenths : nat -> Q := fun n => Z.of_nat n # 7.

(** ** Notions used in the statements *)

(** The [k]-th draw from now on. *)
Definition sample (g : rng) (k : nat) : Q :=
  frac (stream g (cursor g + k)).

(** The generators after [k] draws. *)
Definition after_draws (g : rng) (k : nat) : rng :=
  mkRng (stream g) (cursor g + k).

Section Notions.
Context {FM : FloatModel}.

(** Arm [i] has counters, and they give [numpy.random.beta] two positive
    shape parameters. *)
Definition beta_ready (self : BanditAlgorithm) (alpha beta : Q) (i : Z)
  : Prop :=
  exists c d : Z,
    getitem (clicked self) i = Ok c /\
    getitem (displayed self) i = Ok d /\
    (0 < fadd alpha (inject_Z c))%Q /\
    (0 < fsub (fadd beta (inject_Z d)) (inject_Z c))%Q.

End Notions.

(** The counters of an algorithm object are consistent: the three lists
    have [num] entries, each arm was clicked at most as often as displayed,
    and each [ctr] is a rate. *)
Definition consistent (a : BanditAlgorithm) : Prop :=
  length (displayed a) = Z.to_nat (num a) /\
  length (ctr a) = Z.to_nat (num a) /\
  Forall2 (fun c d : Z => 0 <= c <= d) (clicked a) (displayed a) /\
  Forall (fun q : Q => (0 <= q <= 1)%Q) (ctr a).

(** What a policy needs for [choose] to succeed after [t] displays: the
    parameters of [ThomsonSampling] are at least 2^-20 and the counters
    stay below 2^32, where sums of a parameter and a counter round as
    expected. *)
Definition policy_ready (p : Policy) (t : Z) : Prop :=
  match p with
  | ThomsonSampling alpha beta =>
      (1 # 1048576 <= alpha)%Q /\ (1 # 1048576 <= beta)%Q /\ t < 2 ^ 32
  | _ => True
  end.

(** The loop has displayed [t] arms so far with an algorithm of [n] arms
    and policy [p]. *)
Definition running (n : Z) (p : Policy) (t : Z) (a : BanditAlgorithm)
  : Prop :=
  consistent a /\ num a = n /\ policy a = p /\ py_sum (displayed a) = t.

(** The same, read arm by arm through the lists. *)
Definition arm_bounds (a : BanditAlgorithm) : Prop :=
  forall i : Z, 0 <= i < num a ->
    exists (c d : Z) (q : Q),
      getitem (clicked a) i = Ok c /\
      getitem (displayed a) i = Ok d /\
      getitem (ctr a) i = Ok q /\
      0 <= c /\ c <= d /\ (0 <= q)%Q /\ (q <= 1)%Q.

Section Trials.
Context {FM : FloatModel}.

(** The world in which try number [j] (from 0) starts: the one the [j]
    tries before it have left. *)
Definition trial_start (arms : Arms) (maxtime j : Z) (w0 : world) : world :=
  snd (tries_of arms maxtime j w0).

(** The world after [t] steps of try number [j], for an algorithm with [n]
    arms and policy [p] built just before the loop. *)
Definition world_at (p : Policy) (n : Z) (arms : Arms) (maxtime j : Z)
    (t : nat) (g : rng) : world :=
  snd (collect t (step arms)
         (trial_start arms maxtime j (mkWorld (BanditAlgorithm_init n p) g))).

(** What independent tries would mean: every try starts on a new object. *)
Definition fresh_every_trial (p : Policy) (n : Z) (arms : Arms)
    (maxtime num_tries : Z) (g : rng) : Prop :=
  forall j : Z, 0 <= j < num_tries ->
    alg (trial_start arms maxtime j (mkWorld (BanditAlgorithm_init n p) g))
      = BanditAlgorithm_init n p.

(** The state after [display] has chosen arm [i], at position [k] of the
    lists, displayed [d] times so far and clicked [c] times. *)
Definition displayed_once (a : BanditAlgorithm) (k : nat) (c d : Z)
  : BanditAlgorithm :=
  mkAlg (num a) (replace (displayed a) k (d + 1)) (clicked a)
        (replace (ctr a) k (rnd (inject_Z c / inject_Z (d + 1)))) (policy a).

(** The state after a click on that arm. *)
Definition clicked_once (a : BanditAlgorithm) (k : nat) (c d : Z)
  : BanditAlgorithm :=
  mkAlg (num a) (displayed a) (replace (clicked a) k (c + 1))
        (replace (ctr a) k (rnd (inject_Z (c + 1) / inject_Z d))) (policy a).

(** The first three displays of a fresh algorithm with three arms, with
    rewards [b0], [b1], [b2] in between: the arms displayed. *)
Definition first_three_displays (p : Policy) (b0 b1 b2 : bool) (g : rng)
  : outcome (list Z) :=
  fst ((i0 <- display ;; reward i0 b0 ;;
        i1 <- display ;; reward i1 b1 ;;
        i2 <- display ;; reward i2 b2 ;;
        ret [i0; i1; i2]) (mkWorld (BanditAlgorithm_init 3 p) g)).

End Trials.

(** Three arms, each displayed once, only arm 0 clicked: arm 0 has the
    highest [ctr]. *)
Definition primed (epsilon : Q) : BanditAlgorithm :=
  mkAlg 3 [1; 1; 1] [1; 0; 0] [1%Q; 0%Q; 0%Q] (EGreedy epsilon).


Section Averaged.
Context {FM : FloatModel}.








End Averaged.



(** Three arms clicked with probabilities 0.1, 0.5 and 0.9. *)
Definition three_arms : Arms := mkArms [1 # 10; 1 # 2; 9 # 10]%Q.

(** The score of an arm, when it is computed. *)
Definition value (o : outcome Q) : Q :=
  match o with Ok q => q | Raise _ => 0%Q end.

Section Current.
Context {FM : FloatModel}.

(** Every [ctr] is up to date: [0.0] for an arm never displayed, and else
    the float quotient of its clicks by its displays. *)
Definition ctr_current (a : BanditAlgorithm) : Prop :=
  forall (k : nat) (c d : Z) (q : Q),
    nth_error (clicked a) k = Some c ->
    nth_error (displayed a) k = Some d ->
    nth_error (ctr a) k = Some q ->
    q = if d =? 0 then 0%Q else rnd (inject_Z c / inject_Z d).

(** The list [ps] the page builds from the percentages typed in, one per
    arm: each is divided by [100.0]. *)
Fixpoint ps_of_percents (percents : list Q) : outcome (list Q) :=
  match percents with
  | [] => Ok []
  | x :: rest =>
      p <~ fdiv x 100 ;;
      ps <~ ps_of_percents rest ;;
      Ok (p :: ps)
  end.

(** The score [theta] that [UCB1.choose] or [UCB1Tuned.choose] gives arm
    [i], by the class of [self]. *)
Definition score (self : BanditAlgorithm) (i : Z) : Q :=
  value (match policy self with
         | UCB1Tuned => UCB1Tuned_theta self (py_sum (displayed self)) i
         | _ => UCB1_theta self (py_sum (displayed self)) i
         end).

End Current.

(** For the examples: a new algorithm with three arms and the draws
    0, 1/7, 2/7, ...; and three arms displayed once each, arm 0 clicked. *)
Definition example_world (p : Policy) : world :=
  mkWorld (BanditAlgorithm_init 3 p) (mkRng sevenths 0).

Definition warmed (p : Policy) : BanditAlgorithm :=
  mkAlg 3 [1; 1; 1] [1; 0; 0] [1%Q; 0%Q; 0%Q] p.

(** * Properties *)

(** ** Comparisons, rounding, lists *)

Lemma Qltb_lt (a b : Q) : Qltb a b = true <-> (a < b)%Q.
Proof.
  unfold Qltb. rewrite negb_true_iff, <- not_true_iff_false, Qle_bool_iff.
  split; [apply Qnot_le_lt | apply Qlt_not_le].
Qed.

Lemma Qltb_ge (a b : Q) : Qltb a b = false <-> (b <= a)%Q.
Proof. unfold Qltb. rewrite negb_false_iff. apply Qle_bool_iff. Qed.

Lemma Qgeb_le (a b : Q) : Qgeb a b = true <-> (b <= a)%Q.
Proof. apply Qle_bool_iff. Qed.

Lemma frac_range (q : Q) : (0 <= frac q < 1)%Q.
Proof.
  unfold frac. pose proof (Qfloor_le q). pose proof (Qlt_floor q).
  rewrite inject_Z_plus in *. change (inject_Z 1) with 1%Q in *. split; lra.
Qed.

Lemma Qfloor_scaled_range (u : Q) (n : Z) :
  (0 <= u < 1)%Q -> 0 < n -> 0 <= Qfloor (u * inject_Z n) < n.
Proof.
  intros [Hu0 Hu1] Hn.
  assert (Hn' : (0 < inject_Z n)%Q) by (change 0%Q with (inject_Z 0); now rewrite <- Zlt_Qlt).
  split.
  - change 0 with (Qfloor 0). apply Qfloor_resp_le. nra.
  - apply Z.lt_nge. intros Hge.
    assert ((inject_Z n <= u * inject_Z n)%Q).
    { eapply Qle_trans; [| apply Qfloor_le]. now rewrite <- Zle_Qle. }
    nra.
Qed.

Section Basics.
Context {FM : FloatModel}.

Lemma rnd_proper (x y : Q) : (x == y)%Q -> (rnd x == rnd y)%Q.
Proof.
  intros H. apply Qle_antisym; apply rnd_mono; rewrite H; apply Qle_refl.
Qed.

Lemma rnd_int (z : Z) : 0 <= z <= 2 ^ 32 -> (rnd (inject_Z z) == inject_Z z)%Q.
Proof.
  intros Hz.
  assert (E : (inject_Z z == (z * 1048576) # 1048576)%Q).
  { unfold Qeq, inject_Z; simpl. lia. }
  rewrite (rnd_proper _ _ E), E. apply rnd_exact. lia.
Qed.


Lemma rnd_0 : (rnd 0 == 0)%Q.
Proof. apply (rnd_int 0). lia. Qed.

Lemma rnd_1 : (rnd 1 == 1)%Q.
Proof. apply (rnd_int 1). lia. Qed.

Lemma rnd_unit (x : Q) : (0 <= x <= 1)%Q -> (0 <= rnd x <= 1)%Q.
Proof.
  intros [H0 H1]. split.
  - rewrite <- rnd_0. now apply rnd_mono.
  - rewrite <- rnd_1. now apply rnd_mono.
Qed.

End Basics.

Lemma position_lt {A} (l : list A) (i : Z) (k : nat) :
  position l i = Ok k -> (k < length l)%nat.
Proof.
  unfold position, len.
  destruct ((0 <=? i) && (i <? Z.of_nat (length l))) eqn:E1.
  - intros [= <-]. apply andb_true_iff in E1. lia.
  - destruct ((- Z.of_nat (length l) <=? i) && (i <? 0)) eqn:E2;
      [| discriminate].
    intros [= <-]. apply andb_true_iff in E2. lia.
Qed.

Lemma position_inrange {A} (l : list A) (i : Z) :
  0 <= i < len l -> position l i = Ok (Z.to_nat i).
Proof.
  intros H. unfold position.
  replace ((0 <=? i) && (i <? len l)) with true; [reflexivity |].
  symmetry. apply andb_true_iff. lia.
Qed.

Lemma replace_length {A} (l : list A) (k : nat) (v : A) :
  length (replace l k v) = length l.
Proof.
  revert k. induction l as [| h t IH]; intros [| k]; simpl; auto.
Qed.

Lemma nth_error_replace_same {A} (l : list A) (k : nat) (v : A) :
  (k < length l)%nat -> nth_error (replace l k v) k = Some v.
Proof.
  revert k. induction l as [| h t IH]; intros [| k] H; simpl in *;
    try lia; auto. apply IH. lia.
Qed.

Lemma nth_error_replace_other {A} (l : list A) (k j : nat) (v : A) :
  j <> k -> nth_error (replace l k v) j = nth_error l j.
Proof.
  revert k j. induction l as [| h t IH]; intros [| k] [| j] H; simpl;
    try reflexivity; try congruence. apply IH. congruence.
Qed.

Lemma position_replace {A} (l : list A) (k : nat) (v : A) (i : Z) :
  position (replace l k v) i = position l i.
Proof. unfold position, len. now rewrite replace_length. Qed.

Lemma getitem_position {A} (l : list A) (i : Z) (a : A) :
  getitem l i = Ok a ->
  exists k, position l i = Ok k /\ nth_error l k = Some a.
Proof.
  unfold getitem, obind. destruct (position l i) as [k |]; [| discriminate].
  destruct (nth_error l k) eqn:E; [| discriminate].
  intros [= <-]. eauto.
Qed.

Lemma getitem_inrange {A} (l : list A) (i : Z) :
  0 <= i < len l ->
  exists a, getitem l i = Ok a /\ nth_error l (Z.to_nat i) = Some a.
Proof.
  intros H. unfold getitem, obind. rewrite position_inrange by assumption.
  destruct (nth_error l (Z.to_nat i)) eqn:E; [eauto |].
  apply nth_error_None in E. unfold len in H. lia.
Qed.


(** ** The operations on the counters *)

Section Counters.
Context {FM : FloatModel}.

Lemma reward_false (i : Z) (w : world) : reward i false w = (Ok tt, w).
Proof. reflexivity. Qed.

(** C5: a reward that is not a click leaves the whole object, and the
    generators, as they were: [displayed], [clicked] and [ctr] are the same
    lists before and after, for any index [i]. *)
Theorem reward_miss_unchanged (i : Z) (w : world) :
  reward i false w = (Ok tt, w).
Proof. apply reward_false. Qed.

(** C4: [ctr_overall] never raises and never changes the state; it is
    exactly [0.0] when nothing was displayed, and otherwise the float
    quotient of [sum(self.clicked)] by [sum(self.displayed)]. *)
Theorem ctr_overall_spec (w : world) :
  snd (ctr_overall w) = w /\
  fst (ctr_overall w) =
    Ok (if py_sum (displayed (alg w)) =? 0 then 0%Q
        else rnd (inject_Z (py_sum (clicked (alg w)))
                  / inject_Z (py_sum (displayed (alg w))))).
Proof.
  unfold ctr_overall, truediv.
  destruct (py_sum (displayed (alg w)) =? 0); simpl; auto.
Qed.


(** C6: [ThomsonSampling.__init__] fails (its [assert]) exactly when
    [alpha <= 0] or [beta <= 0], and otherwise gives the object of
    [BanditAlgorithm.__init__]: [num] zeros in each of the three lists. *)
Theorem ThomsonSampling_init_spec (n : Z) (alpha beta : Q) :
  ((alpha <= 0 \/ beta <= 0)%Q ->
     ThomsonSampling_init n alpha beta = Raise AssertionError) /\
  ((0 < alpha /\ 0 < beta)%Q ->
     ThomsonSampling_init n alpha beta =
       Ok (mkAlg n (repeat 0 (Z.to_nat n)) (repeat 0 (Z.to_nat n))
                 (repeat 0%Q (Z.to_nat n)) (ThomsonSampling alpha beta))).
Proof.
  unfold ThomsonSampling_init. split.
  - intros [H | H].
    + apply Qltb_ge in H. now rewrite H.
    + apply Qltb_ge in H. rewrite H. now destruct (Qltb 0 alpha).
  - intros [Ha Hb]. apply Qltb_lt in Ha, Hb. now rewrite Ha, Hb.
Qed.

End Counters.

(** ** ThomsonSampling.choose *)

Section Thomson.
Context {FM : FloatModel}.

Lemma numpy_random_beta_ok (a b : Q) (g : rng) :
  (0 < a)%Q -> (0 < b)%Q ->
  numpy_random_beta a b g = (Ok (sample g 0), after_draws g 1).
Proof.
  intros Ha Hb. unfold numpy_random_beta.
  apply Qltb_lt in Ha, Hb. unfold Qltb in Ha, Hb.
  apply negb_true_iff in Ha, Hb. rewrite Ha, Hb. simpl.
  unfold draw, sample, after_draws. now rewrite Nat.add_0_r, Nat.add_1_r.
Qed.

Lemma sample_after (g : rng) (a k : nat) :
  sample (after_draws g a) k = sample g (a + k).
Proof. unfold sample, after_draws; simpl. now rewrite Nat.add_assoc. Qed.

Lemma after_after (g : rng) (a b : nat) :
  after_draws (after_draws g a) b = after_draws g (a + b).
Proof. unfold after_draws; simpl. now rewrite Nat.add_assoc. Qed.

(** The loop, started with a best sample [mt] at index [mi]: it ends on
    [mi] when no sample is above [mt], and otherwise on the first index whose
    sample is the largest. *)
Lemma ThomsonSampling_loop_spec (self : BanditAlgorithm) (alpha beta : Q)
    (idx : list Z) :
  Forall (beta_ready self alpha beta) idx ->
  forall (mt : Q) (mi : Z) (g : rng),
  exists r : Z,
    ThomsonSampling_loop self alpha beta idx mt mi g
      = (Ok r, after_draws g (length idx)) /\
    ((r = mi /\ forall k, (k < length idx)%nat -> (sample g k <= mt)%Q) \/
     (exists k, (k < length idx)%nat /\ nth_error idx k = Some r /\
        (mt < sample g k)%Q /\
        (forall j, (j < k)%nat -> (sample g j < sample g k)%Q) /\
        (forall j, (j < length idx)%nat -> (sample g j <= sample g k)%Q))).
Proof.
  induction 1 as [| i idx (c & d & Hc & Hd & Ha & Hb) _ IH]; intros mt mi g.
  - exists mi. split.
    + simpl. unfold ret, after_draws. destruct g; simpl.
      now rewrite Nat.add_0_r.
    + left. split; [reflexivity |]. simpl; intros; lia.
  - cbn [ThomsonSampling_loop]. unfold bind at 1 2 3 4, lift.
    rewrite Hc, Hd, (numpy_random_beta_ok _ _ g Ha Hb).
    destruct (Qltb mt (sample g 0)) eqn:E.
    + apply Qltb_lt in E.
      destruct (IH (sample g 0) i (after_draws g 1))
        as (r & Hr & Hcases).
      exists r. split.
      { rewrite Hr, after_after. reflexivity. }
      right. destruct Hcases as [[-> Hall] | (k & Hk & Hn & Hgt & Hbef & Hall)].
      * exists 0%nat. simpl. repeat split; auto; try lia.
        intros [| j] Hj; [apply Qle_refl |].
        specialize (Hall j ltac:(lia)). now rewrite sample_after in Hall.
      * rewrite sample_after in Hgt. exists (S k). simpl.
        repeat split; auto; try lia.
        -- eapply Qlt_trans; eassumption.
        -- intros [| j] Hj; [assumption |].
           specialize (Hbef j ltac:(lia)).
           now rewrite !sample_after in Hbef.
        -- intros [| j] Hj; [now apply Qlt_le_weak |].
           specialize (Hall j ltac:(lia)).
           now rewrite !sample_after in Hall.
    + apply Qltb_ge in E.
      destruct (IH mt mi (after_draws g 1)) as (r & Hr & Hcases).
      exists r. split.
      { rewrite Hr, after_after. reflexivity. }
      destruct Hcases as [[-> Hall] | (k & Hk & Hn & Hgt & Hbef & Hall)].
      * left. split; [reflexivity |].
        intros [| j] Hj; [assumption |].
        specialize (Hall j ltac:(simpl in Hj; lia)).
        now rewrite sample_after in Hall.
      * rewrite sample_after in Hgt. right. exists (S k). simpl.
        repeat split; auto; try lia.
        -- intros [| j] Hj; [eapply Qle_lt_trans; eassumption |].
           specialize (Hbef j ltac:(lia)).
           now rewrite !sample_after in Hbef.
        -- intros [| j] Hj.
           ++ apply Qlt_le_weak. eapply Qle_lt_trans; eassumption.
           ++ specialize (Hall j ltac:(lia)).
              now rewrite !sample_after in Hall.
Qed.

Lemma range_length (n : Z) : length (range n) = Z.to_nat n.
Proof. unfold range. now rewrite length_map, length_seq. Qed.

Lemma range_nth_error (n : Z) (k : nat) (r : Z) :
  nth_error (range n) k = Some r -> r = Z.of_nat k /\ (k < Z.to_nat n)%nat.
Proof.
  unfold range. intros H.
  assert (Hk : (k < Z.to_nat n)%nat).
  { assert (Hs : nth_error (map Z.of_nat (seq 0 (Z.to_nat n))) k <> None)
      by congruence.
    apply nth_error_Some in Hs. now rewrite length_map, length_seq in Hs. }
  rewrite nth_error_map, nth_error_seq in H.
  apply Nat.ltb_lt in Hk. rewrite Hk in H. simpl in H.
  apply Nat.ltb_lt in Hk. split; [congruence | assumption].
Qed.

Lemma range_In (n i : Z) : In i (range n) <-> 0 <= i < n.
Proof.
  unfold range. rewrite in_map_iff. split.
  - intros (k & <- & Hk). apply in_seq in Hk. lia.
  - intros H. exists (Z.to_nat i). split; [lia |]. apply in_seq. lia.
Qed.

(** C8: when every arm gives [numpy.random.beta] valid shape parameters
    [(alpha + clicked[i], beta + displayed[i] - clicked[i])], the choice of
    [ThomsonSampling] draws one sample per arm, in order, and returns arm 0
    if no sample is above 0.0, and otherwise the arm of the largest sample,
    the first one on a tie: the sample chosen is above 0.0, strictly above
    every earlier sample and not below any sample. *)
Theorem ThomsonSampling_choose_spec (self : BanditAlgorithm)
    (alpha beta : Q) (g : rng) :
  Forall (beta_ready self alpha beta) (range (num self)) ->
  exists r : Z,
    ThomsonSampling_choose self alpha beta g
      = (Ok r, after_draws g (Z.to_nat (num self))) /\
    ((r = 0 /\
      forall k, (k < Z.to_nat (num self))%nat -> (sample g k <= 0)%Q) \/
     (exists k, (k < Z.to_nat (num self))%nat /\ r = Z.of_nat k /\
        (0 < sample g k)%Q /\
        (forall j, (j < k)%nat -> (sample g j < sample g k)%Q) /\
        (forall j, (j < Z.to_nat (num self))%nat ->
                   (sample g j <= sample g k)%Q))).
Proof.
  intros Hready. unfold ThomsonSampling_choose.
  destruct (ThomsonSampling_loop_spec self alpha beta _ Hready 0%Q 0 g)
    as (r & Hr & Hcases).
  rewrite range_length in *. exists r. split; [exact Hr |].
  destruct Hcases as [H | (k & Hk & Hn & H)]; [left; exact H | right].
  exists k. apply range_nth_error in Hn. destruct Hn as [-> _]. auto.
Qed.

End Thomson.

(** ** UCB1.choose and UCB1Tuned.choose: arms never displayed come first *)

Section ColdStart.
Context {FM : FloatModel}.

Lemma range_split (n i : Z) :
  0 <= i < n ->
  range n = range i ++ i :: map Z.of_nat (seq (S (Z.to_nat i))
                                              (Z.to_nat n - S (Z.to_nat i))).
Proof.
  intros H. unfold range.
  replace (Z.to_nat n)
    with (Z.to_nat i + S (Z.to_nat n - S (Z.to_nat i)))%nat at 1 by lia.
  rewrite seq_app, map_app. simpl. now rewrite Z2Nat.id by lia.
Qed.

Lemma first_undisplayed_skip (self : BanditAlgorithm) (pre rest : list Z) :
  (forall j, In j pre ->
     exists d, getitem (displayed self) j = Ok d /\ d <> 0) ->
  first_undisplayed self (pre ++ rest) = first_undisplayed self rest.
Proof.
  induction pre as [| j pre IH]; intros H; [reflexivity |].
  simpl. destruct (H j (or_introl eq_refl)) as (d & -> & Hd). simpl.
  apply Z.eqb_neq in Hd. rewrite Hd. apply IH.
  intros k Hk. apply H. now right.
Qed.

Lemma first_undisplayed_lowest (self : BanditAlgorithm) (i : Z) :
  len (displayed self) = num self ->
  0 <= i < num self ->
  getitem (displayed self) i = Ok 0 ->
  (forall j, 0 <= j < i -> getitem (displayed self) j <> Ok 0) ->
  first_undisplayed self (range (num self)) = Ok (Some i).
Proof.
  intros Hlen Hi Hzero Hlow.
  rewrite (range_split _ _ Hi), first_undisplayed_skip.
  - simpl. now rewrite Hzero.
  - intros j Hj. apply range_In in Hj.
    destruct (getitem_inrange (displayed self) j) as (d & Hd & _); [lia |].
    exists d. split; [assumption |]. intros ->. now apply (Hlow j).
Qed.

(** C7: when some arm was never displayed, [UCB1.choose] and
    [UCB1Tuned.choose] return the lowest such arm (and draw nothing); so a
    fresh algorithm of either class with three arms displays arms 0, 1, 2
    first, in this order, whatever the rewards. *)
Theorem UCB_cold_start :
  (forall (self : BanditAlgorithm) (i : Z) (g : rng),
     policy self = UCB1 \/ policy self = UCB1Tuned ->
     len (displayed self) = num self ->
     0 <= i < num self ->
     getitem (displayed self) i = Ok 0 ->
     (forall j, 0 <= j < i -> getitem (displayed self) j <> Ok 0) ->
     choose self g = (Ok i, g)) /\
  (forall (p : Policy) (b0 b1 b2 : bool) (g : rng),
     p = UCB1 \/ p = UCB1Tuned ->
     first_three_displays p b0 b1 b2 g = Ok [0; 1; 2]).
Proof.
  split.
  - intros self i g Hp Hlen Hi Hzero Hlow.
    pose proof (first_undisplayed_lowest self i Hlen Hi Hzero Hlow) as Hf.
    unfold choose, lift, UCB1_choose, UCB1Tuned_choose.
    destruct Hp as [-> | ->]; now rewrite Hf.
  - intros p b0 b1 b2 g [-> | ->]; destruct b0, b1, b2; reflexivity.
Qed.

End ColdStart.

(** ** EGreedy.choose *)

Lemma draw_sample (g : rng) : draw g = (Ok (sample g 0), after_draws g 1).
Proof.
  unfold draw, sample, after_draws. now rewrite Nat.add_0_r, Nat.add_1_r.
Qed.

Lemma sample_range (g : rng) (k : nat) : (0 <= sample g k < 1)%Q.
Proof. apply frac_range. Qed.

(** Which branch [EGreedy.choose] takes: it explores exactly when the draw
    of [random.random()] is above [epsilon]. *)
Lemma EGreedy_choose_branch (self : BanditAlgorithm) (epsilon : Q) (g : rng) :
  EGreedy_choose self epsilon g =
    if Qltb epsilon (sample g 0)
    then random_randrange (num self) (after_draws g 1)
    else (maxctr <- lift (py_max (ctr self)) ;;
          maxarms <- lift (maxarms_of (ctr self) maxctr (range (num self))) ;;
          random_choice maxarms) (after_draws g 1).
Proof.
  unfold EGreedy_choose, random_random, bind at 1. rewrite draw_sample.
  now destruct (Qltb epsilon (sample g 0)).
Qed.

(** With [epsilon = 1.0] the exploring branch is never taken. *)
Lemma EGreedy_one_exploits (g : rng) : Qltb 1 (sample g 0) = false.
Proof. apply Qltb_ge. apply Qlt_le_weak. apply sample_range. Qed.

(** With [epsilon = 0.0] it is taken on every draw but 0. *)
Lemma EGreedy_zero_explores (self : BanditAlgorithm) (g : rng) :
  (0 < sample g 0)%Q ->
  EGreedy_choose self 0 g = random_randrange (num self) (after_draws g 1).
Proof.
  intros H. rewrite EGreedy_choose_branch. apply Qltb_lt in H.
  now rewrite H.
Qed.

(** C1, on the code: the test of [EGreedy.choose] is the wrong way round.
    With [epsilon = 0.0] and arm 0 primed, a draw of 3/7 makes it explore
    and return arm 1; with [epsilon = 1.0] it never explores: on the
    primed arms every call returns arm 0, whatever is drawn. *)
Theorem EGreedy_choose_inverted :
  fst (EGreedy_choose (primed 0) 0 (mkRng sevenths 3)) = Ok 1 /\
  (forall g : rng, fst (EGreedy_choose (primed 1) 1 g) = Ok 0).
Proof.
  split; [reflexivity |].
  intros g. rewrite EGreedy_choose_branch, EGreedy_one_exploits.
  assert (Hmax : py_max (ctr (primed 1)) = Ok 1%Q) by reflexivity.
  assert (Harms : maxarms_of (ctr (primed 1)) 1 (range (num (primed 1)))
                  = Ok [0]) by reflexivity.
  unfold bind at 1 2, lift. rewrite Hmax, Harms.
  unfold random_choice. simpl (len [0] =? 0). unfold bind.
  rewrite draw_sample. unfold lift, fst.
  pose proof (Qfloor_scaled_range (sample (after_draws g 1) 0) 1
                (sample_range _ _) ltac:(lia)) as H.
  change (len [0]) with 1.
  replace (Qfloor (sample (after_draws g 1) 0 * inject_Z 1)) with 0 by lia.
  reflexivity.
Qed.


(** ** The counters stay consistent *)

Lemma position_same_length {A B} (l1 : list A) (l2 : list B) (i : Z) :
  length l1 = length l2 -> position l1 i = position l2 i.
Proof. intros H. unfold position, len. now rewrite H. Qed.

Lemma getitem_nth {A} (l : list A) (i : Z) (k : nat) :
  position l i = Ok k ->
  exists a, nth_error l k = Some a /\ getitem l i = Ok a.
Proof.
  intros Hk. unfold getitem, obind. rewrite Hk.
  destruct (nth_error l k) eqn:E; [eauto |].
  apply nth_error_None in E. apply position_lt in Hk. lia.
Qed.

Lemma getitem_raise {A} (l : list A) (i : Z) (e : exn) :
  getitem l i = Raise e -> position l i = Raise e.
Proof.
  unfold getitem, obind. destruct (position l i) as [k |] eqn:Hk;
    [| intros [= ->]; reflexivity].
  destruct (getitem_nth l i k Hk) as (a & -> & _). simpl. discriminate.
Qed.

Lemma Forall2_nth_error {A B} (P : A -> B -> Prop) (l1 : list A)
    (l2 : list B) (k : nat) (a : A) (b : B) :
  Forall2 P l1 l2 -> nth_error l1 k = Some a -> nth_error l2 k = Some b ->
  P a b.
Proof.
  intros H. revert k. induction H as [| x y l1 l2 Hxy _ IH]; intros [| k];
    simpl; try discriminate.
  - now intros [= <-] [= <-].
  - apply IH.
Qed.

Lemma Forall2_replace_l {A B} (P : A -> B -> Prop) (l1 : list A)
    (l2 : list B) (k : nat) (v : A) (b : B) :
  Forall2 P l1 l2 -> nth_error l2 k = Some b -> P v b ->
  Forall2 P (replace l1 k v) l2.
Proof.
  intros H. revert k. induction H as [| x y l1 l2 Hxy H IH]; intros [| k];
    simpl; try discriminate.
  - intros [= <-] Hv. now constructor.
  - intros Hn Hv. constructor; [assumption | eapply IH; eassumption].
Qed.

Lemma Forall2_replace_r {A B} (P : A -> B -> Prop) (l1 : list A)
    (l2 : list B) (k : nat) (a : A) (v : B) :
  Forall2 P l1 l2 -> nth_error l1 k = Some a -> P a v ->
  Forall2 P l1 (replace l2 k v).
Proof.
  intros H. revert k. induction H as [| x y l1 l2 Hxy H IH]; intros [| k];
    simpl; try discriminate.
  - intros [= <-] Hv. now constructor.
  - intros Hn Hv. constructor; [assumption | eapply IH; eassumption].
Qed.

Lemma Forall_replace {A} (P : A -> Prop) (l : list A) (k : nat) (v : A) :
  Forall P l -> P v -> Forall P (replace l k v).
Proof.
  intros H Hv. revert k. induction H as [| x l Hx H IH]; intros [| k];
    simpl; auto.
Qed.

Lemma fold_add_from (l : list Z) (a : Z) :
  fold_left Z.add l a = a + fold_left Z.add l 0.
Proof.
  revert a. induction l as [| y l IH]; intros a; simpl; [lia |].
  rewrite (IH (a + y)), (IH y). lia.
Qed.

Lemma py_sum_cons (x : Z) (l : list Z) : py_sum (x :: l) = x + py_sum l.
Proof. unfold py_sum. simpl. apply fold_add_from. Qed.

Lemma py_sum_replace (l : list Z) (k : nat) (d v : Z) :
  nth_error l k = Some d -> py_sum (replace l k v) = py_sum l - d + v.
Proof.
  revert k. induction l as [| x l IH]; intros [| k]; simpl; try discriminate.
  - intros [= <-]. rewrite !py_sum_cons. lia.
  - intros H. rewrite !py_sum_cons, (IH k H). lia.
Qed.

Lemma py_sum_le (l1 l2 : list Z) :
  Forall2 (fun c d : Z => 0 <= c <= d) l1 l2 ->
  0 <= py_sum l1 <= py_sum l2.
Proof.
  induction 1 as [| c d l1 l2 Hcd _ IH].
  - unfold py_sum; simpl; lia.
  - rewrite !py_sum_cons. lia.
Qed.

Lemma py_sum_nth_le (l1 l2 : list Z) (k : nat) (d : Z) :
  Forall2 (fun c d : Z => 0 <= c <= d) l1 l2 ->
  nth_error l2 k = Some d -> d <= py_sum l2.
Proof.
  intros H. revert k. induction H as [| c y l1 l2 Hcd H IH]; intros [| k];
    simpl; try discriminate.
  - intros [= <-]. rewrite py_sum_cons. apply py_sum_le in H. lia.
  - intros Hn. rewrite py_sum_cons. specialize (IH k Hn). lia.
Qed.

Section Invariant.
Context {FM : FloatModel}.

Lemma truediv_rate (c d : Z) :
  0 <= c <= d -> 0 < d ->
  truediv c d = Ok (rnd (inject_Z c / inject_Z d)) /\
  (0 <= rnd (inject_Z c / inject_Z d) <= 1)%Q.
Proof.
  intros Hc Hd. unfold truediv.
  replace (d =? 0) with false by (symmetry; apply Z.eqb_neq; lia).
  split; [reflexivity |]. apply rnd_unit.
  assert (Hd' : (0 < inject_Z d)%Q)
    by (change 0%Q with (inject_Z 0); rewrite <- Zlt_Qlt; lia).
  assert (Hc0 : (0 <= inject_Z c)%Q)
    by (change 0%Q with (inject_Z 0); rewrite <- Zle_Qle; lia).
  assert (Hcd : (inject_Z c <= inject_Z d)%Q) by (rewrite <- Zle_Qle; lia).
  split.
  - apply Qle_shift_div_l; [assumption | lra].
  - apply Qle_shift_div_r; [assumption | lra].
Qed.

Lemma consistent_lengths (a : BanditAlgorithm) :
  consistent a ->
  length (clicked a) = length (displayed a) /\
  length (ctr a) = length (displayed a).
Proof.
  intros (Hd & Hq & H2 & _). split; [| congruence].
  eapply Forall2_length; eassumption.
Qed.

Lemma display_spec (w : world) :
  consistent (alg w) ->
  match choose (alg w) (gen w) with
  | (Raise e, g') => display w = (Raise e, mkWorld (alg w) g')
  | (Ok i, g') =>
      match position (displayed (alg w)) i with
      | Raise e => display w = (Raise e, mkWorld (alg w) g')
      | Ok k =>
          exists c d : Z,
            nth_error (clicked (alg w)) k = Some c /\
            nth_error (displayed (alg w)) k = Some d /\
            display w = (Ok i, mkWorld (displayed_once (alg w) k c d) g')
      end
  end.
Proof.
  intros Hcons. destruct (consistent_lengths _ Hcons) as [Hlc Hlq].
  assert (Hdisp : display w =
            (i <- (fun w' => (fst (choose (alg w) (gen w)),
                              mkWorld (alg w') (snd (choose (alg w) (gen w))))) ;;
             d <- load displayed i ;;
             store displayed set_displayed i (d + 1) ;;
             update_ctr i ;; ret i) w).
  { unfold display, bind at 1, with_gen.
    unfold bind at 5. now destruct (choose (alg w) (gen w)). }
  rewrite Hdisp. clear Hdisp. unfold bind at 1.
  destruct (choose (alg w) (gen w)) as [[i | e] g']; [| reflexivity].
  unfold fst, snd.
  destruct (position (displayed (alg w)) i) as [k | e] eqn:Hk.
  - destruct (getitem_nth _ _ _ Hk) as (d & Hnd & Hgd).
    assert (Hkc : position (clicked (alg w)) i = Ok k)
      by (rewrite <- Hk; now apply position_same_length).
    assert (Hkq : position (ctr (alg w)) i = Ok k)
      by (rewrite <- Hk; now apply position_same_length).
    destruct (getitem_nth _ _ _ Hkc) as (c & Hnc & Hgc).
    exists c, d. repeat split; auto.
    destruct Hcons as (_ & _ & H2 & _).
    pose proof (Forall2_nth_error _ _ _ _ _ _ H2 Hnc Hnd) as Hcd.
  cbv beta in Hcd.
    destruct (truediv_rate c (d + 1)) as [Hdiv _]; [lia | lia |].
    unfold bind, load, store, update_ctr, bind, load, store, lift, setitem,
      getitem, obind; simpl.
    rewrite Hk, Hnd. simpl. rewrite Hkc, Hnc, position_replace, Hk.
    rewrite nth_error_replace_same by (eapply position_lt; eassumption).
    rewrite Hdiv, Hkq. reflexivity.
  - unfold bind, load, getitem, obind; simpl. rewrite Hk. reflexivity.
Qed.

Lemma displayed_once_consistent (a : BanditAlgorithm) (k : nat) (c d : Z) :
  consistent a ->
  nth_error (clicked a) k = Some c -> nth_error (displayed a) k = Some d ->
  consistent (displayed_once a k c d) /\
  nth_error (displayed (displayed_once a k c d)) k = Some (d + 1) /\
  c < d + 1 /\
  py_sum (displayed (displayed_once a k c d)) = py_sum (displayed a) + 1.
Proof.
  intros (Hd & Hq & H2 & Hr) Hnc Hnd.
  pose proof (Forall2_nth_error _ _ _ _ _ _ H2 Hnc Hnd) as Hcd.
  cbv beta in Hcd.
  destruct (truediv_rate c (d + 1)) as [_ Hrate]; [lia | lia |].
  assert (Hk : (k < length (displayed a))%nat)
    by (apply nth_error_Some; congruence).
  unfold displayed_once, consistent; simpl. repeat split.
  - now rewrite replace_length.
  - now rewrite replace_length.
  - eapply Forall2_replace_r; [eassumption | eassumption | simpl; lia].
  - apply Forall_replace; assumption.
  - now apply nth_error_replace_same.
  - lia.
  - rewrite (py_sum_replace _ _ d) by assumption. lia.
Qed.

Lemma reward_spec (w : world) (i : Z) (k : nat) (c d : Z) :
  consistent (alg w) ->
  position (displayed (alg w)) i = Ok k ->
  nth_error (clicked (alg w)) k = Some c ->
  nth_error (displayed (alg w)) k = Some d ->
  c < d ->
  reward i true w = (Ok tt, mkWorld (clicked_once (alg w) k c d) (gen w)) /\
  consistent (clicked_once (alg w) k c d).
Proof.
  intros Hcons Hk Hnc Hnd Hlt.
  destruct (consistent_lengths _ Hcons) as [Hlc Hlq].
  assert (Hkc : position (clicked (alg w)) i = Ok k)
    by (rewrite <- Hk; now apply position_same_length).
  assert (Hkq : position (ctr (alg w)) i = Ok k)
    by (rewrite <- Hk; now apply position_same_length).
  destruct Hcons as (Hd & Hq & H2 & Hr).
  pose proof (Forall2_nth_error _ _ _ _ _ _ H2 Hnc Hnd) as Hcd.
  cbv beta in Hcd.
  destruct (truediv_rate (c + 1) d) as [Hdiv Hrate]; [lia | lia |].
  assert (Hkl : (k < length (clicked (alg w)))%nat)
    by (apply nth_error_Some; congruence).
  split.
  - unfold reward, update_ctr, bind, load, store, lift, setitem, getitem,
      obind; simpl.
    rewrite Hkc, Hnc. simpl. rewrite position_replace, Hkc, Hk, Hnd.
    rewrite nth_error_replace_same by assumption.
    rewrite Hdiv, Hkq. reflexivity.
  - unfold clicked_once, consistent; simpl. repeat split; auto.
    + now rewrite replace_length.
    + eapply Forall2_replace_l; [eassumption | eassumption | simpl; lia].
    + apply Forall_replace; assumption.
Qed.

Lemma ctr_overall_rate (w : world) :
  consistent (alg w) ->
  exists q : Q, ctr_overall w = (Ok q, w) /\ (0 <= q <= 1)%Q.
Proof.
  intros (_ & _ & H2 & _). apply py_sum_le in H2. unfold ctr_overall.
  destruct (py_sum (displayed (alg w)) =? 0) eqn:E.
  - exists 0%Q. split; [reflexivity | lra].
  - apply Z.eqb_neq in E.
    destruct (truediv_rate (py_sum (clicked (alg w)))
                (py_sum (displayed (alg w)))) as [-> Hrate]; [lia | lia |].
    eauto.
Qed.

Lemma Arms_choose_ok (arms : Arms) (i : Z) (g : rng) :
  0 <= i < Arms_num arms -> exists b g', Arms_choose arms i g = (Ok b, g').
Proof.
  intros Hi. unfold Arms_choose.
  replace ((0 <=? i) && (i <? Arms_num arms)) with true
    by (symmetry; apply andb_true_iff; lia).
  destruct (getitem_inrange (ps arms) i Hi) as (p & Hp & _).
  unfold bind, lift, random_random, draw, ret. rewrite Hp. eauto.
Qed.

(** One step keeps the counters consistent, whatever happens in it; and
    when [choose] gives an arm that exists, the step succeeds, records a
    rate, and counts one more display. *)
Lemma step_spec (arms : Arms) (w : world) :
  consistent (alg w) ->
  consistent (alg (snd (step arms w))) /\
  num (alg (snd (step arms w))) = num (alg w) /\
  policy (alg (snd (step arms w))) = policy (alg w) /\
  (forall i g', choose (alg w) (gen w) = (Ok i, g') ->
     0 <= i < num (alg w) -> Arms_num arms = num (alg w) ->
     exists q : Q,
       fst (step arms w) = Ok q /\ (0 <= q <= 1)%Q /\
       py_sum (displayed (alg (snd (step arms w))))
         = py_sum (displayed (alg w)) + 1).
Proof.
  intros Hcons. pose proof (display_spec w Hcons) as Hd.
  destruct (choose (alg w) (gen w)) as [[i | e] g1].
  2:{ assert (Hstep : step arms w = (Raise e, mkWorld (alg w) g1))
        by (unfold step, bind; now rewrite Hd).
      rewrite Hstep. cbn [fst snd alg].
      split; [| split; [| split]]; [assumption | reflexivity | reflexivity |].
      intros ? ? [=]. }
  destruct (position (displayed (alg w)) i) as [k | e] eqn:Hk.
  2:{ assert (Hstep : step arms w = (Raise e, mkWorld (alg w) g1))
        by (unfold step, bind; now rewrite Hd).
      rewrite Hstep. cbn [fst snd alg].
      split; [| split; [| split]]; [assumption | reflexivity | reflexivity |].
      intros i' g' [= <- <-] Hi _.
      destruct Hcons as (Hl & _).
      rewrite position_inrange in Hk by (unfold len; lia). discriminate. }
  destruct Hd as (c & d & Hnc & Hnd & Hd).
  destruct (displayed_once_consistent _ k c d Hcons Hnc Hnd)
    as (Hcons1 & Hnd1 & Hlt & Hsum).
  set (a1 := displayed_once (alg w) k c d) in *.
  assert (Hk1 : position (displayed a1) i = Ok k)
    by (unfold a1, displayed_once; cbn [displayed];
        now rewrite position_replace).
  destruct (Arms_choose arms i g1) as [[b | e] g2] eqn:Harms.
  2:{ assert (Hstep : step arms w = (Raise e, mkWorld a1 g2))
        by (unfold step, bind, with_gen; rewrite Hd; cbn [alg gen];
            now rewrite Harms).
      rewrite Hstep. cbn [fst snd alg].
      split; [| split; [| split]]; [assumption | reflexivity | reflexivity |].
      intros i' g' [= <- <-] Hi Ha.
      destruct (Arms_choose_ok arms i g1) as (b & g3 & Hb);
        [lia | congruence]. }
  destruct b.
  - destruct (reward_spec (mkWorld a1 g2) i k c (d + 1))
      as [Hrew Hcons2]; auto.
    destruct (ctr_overall_rate (mkWorld (clicked_once a1 k c (d + 1)) g2))
      as (q & Hq & Hrate); [exact Hcons2 |].
    cbn [alg gen] in *.
    assert (Hstep : step arms w
                    = (Ok q, mkWorld (clicked_once a1 k c (d + 1)) g2))
      by (unfold step, bind, with_gen; rewrite Hd; cbn [alg gen];
          now rewrite Harms, Hrew, Hq).
    rewrite Hstep. cbn [fst snd alg].
    split; [| split; [| split]]; [assumption | reflexivity | reflexivity |].
    intros _ _ _ _ _. exists q. split; [reflexivity | split; assumption].
  - destruct (ctr_overall_rate (mkWorld a1 g2)) as (q & Hq & Hrate);
      [exact Hcons1 |].
    assert (Hstep : step arms w = (Ok q, mkWorld a1 g2))
      by (unfold step, bind, with_gen; rewrite Hd; cbn [alg gen];
          now rewrite Harms, reward_false, Hq).
    rewrite Hstep. cbn [fst snd alg].
    split; [| split; [| split]]; [assumption | reflexivity | reflexivity |].
    intros _ _ _ _ _. exists q. split; [reflexivity | split; assumption].
Qed.

End Invariant.

(** ** choose succeeds, on an arm that exists *)

Section Progress.
Context {FM : FloatModel}.

Lemma rnd_nonneg (x : Q) : (0 <= x)%Q -> (0 <= rnd x)%Q.
Proof. intros H. rewrite <- rnd_0. now apply rnd_mono. Qed.

Lemma inject_Z_pos (d : Z) : 0 < d -> (0 < inject_Z d)%Q.
Proof. intros H. change 0%Q with (inject_Z 0). now rewrite <- Zlt_Qlt. Qed.

Lemma inject_Z_nonneg (d : Z) : 0 <= d -> (0 <= inject_Z d)%Q.
Proof. intros H. change 0%Q with (inject_Z 0). now rewrite <- Zle_Qle. Qed.

Lemma fdiv_nonneg (x : Q) (d : Z) :
  (0 <= x)%Q -> 0 < d ->
  exists q : Q, fdiv x (inject_Z d) = Ok q /\ (0 <= q)%Q.
Proof.
  intros Hx Hd. pose proof (inject_Z_pos d Hd) as Hd'. unfold fdiv.
  destruct (Qeq_bool (inject_Z d) 0) eqn:E.
  - apply Qeq_bool_iff in E. lra.
  - eexists. split; [reflexivity |]. apply rnd_nonneg.
    apply Qle_shift_div_l; [assumption | lra].
Qed.

Lemma sqrt_ok (x : Q) : (0 <= x)%Q -> sqrt x = Ok (math_sqrt x).
Proof. intros H. unfold sqrt. apply Qltb_ge in H. now rewrite H. Qed.

Lemma log_ok (n : Z) :
  1 <= n -> log n = Ok (math_log n) /\ (0 <= math_log n)%Q.
Proof.
  intros H. unfold log.
  replace (n <=? 0) with false by (symmetry; apply Z.leb_gt; lia).
  split; [reflexivity | now apply math_log_nonneg].
Qed.

Lemma random_randrange_ok (n : Z) (g : rng) :
  0 < n ->
  exists i : Z, random_randrange n g = (Ok i, after_draws g 1) /\ 0 <= i < n.
Proof.
  intros Hn. unfold random_randrange.
  replace (n <=? 0) with false by (symmetry; apply Z.leb_gt; lia).
  unfold bind. rewrite draw_sample. unfold ret. eexists. split; [reflexivity |].
  apply Qfloor_scaled_range; [apply sample_range | assumption].
Qed.

Lemma random_choice_ok {A} (l : list A) (g : rng) :
  l <> [] ->
  exists a : A, random_choice l g = (Ok a, after_draws g 1) /\ In a l.
Proof.
  intros Hl. unfold random_choice.
  assert (Hlen : 0 < len l) by (destruct l; [congruence | unfold len; simpl; lia]).
  replace (len l =? 0) with false by (symmetry; apply Z.eqb_neq; lia).
  unfold bind. rewrite draw_sample. unfold lift.
  pose proof (Qfloor_scaled_range (sample g 0) (len l) (sample_range _ _) Hlen)
    as Hr.
  destruct (getitem_inrange l _ Hr) as (a & -> & Hn).
  exists a. split; [reflexivity |]. eapply nth_error_In; eassumption.
Qed.

Lemma py_max_In (l : list Q) :
  l <> [] -> exists m : Q, py_max l = Ok m /\ In m l.
Proof.
  destruct l as [| x t]; [congruence |]. intros _. simpl.
  eexists. split; [reflexivity |].
  revert x. induction t as [| y t IH]; intros x; simpl; [now left |].
  destruct (Qltb x y).
  - destruct (IH y) as [<- | H]; simpl; auto.
  - destruct (IH x) as [<- | H]; simpl; auto.
Qed.

Lemma maxarms_of_spec (c : list Q) (maxctr : Q) (idx : list Z) :
  (forall i, In i idx -> 0 <= i < len c) ->
  exists l : list Z,
    maxarms_of c maxctr idx = Ok l /\
    (forall i, In i l -> In i idx) /\
    (forall i x, In i idx -> getitem c i = Ok x -> Qgeb x maxctr = true ->
                 In i l).
Proof.
  induction idx as [| i idx IH]; intros Hin.
  - exists []. simpl. split; [reflexivity |]. split; [auto |].
    intros ? ? [].
  - destruct IH as (l & Hl & Hsub & Hall);
      [intros j Hj; apply Hin; now right |].
    destruct (getitem_inrange c i (Hin i (or_introl eq_refl)))
      as (x & Hx & _).
    simpl. rewrite Hx, Hl. simpl. eexists. split; [reflexivity |]. split.
    + intros j Hj. destruct (Qgeb x maxctr); [destruct Hj |]; auto.
    + intros j y [<- | Hj] Hy Hge.
      * rewrite Hx in Hy. injection Hy as ->. rewrite Hge. now left.
      * destruct (Qgeb x maxctr); [right |]; eapply Hall; eassumption.
Qed.

Lemma In_getitem {A} (l : list A) (a : A) :
  In a l -> exists i : Z, 0 <= i < len l /\ getitem l i = Ok a.
Proof.
  intros H. apply In_nth_error in H. destruct H as (k & Hk).
  assert (Hlt : (k < length l)%nat) by (apply nth_error_Some; congruence).
  exists (Z.of_nat k).
  destruct (getitem_inrange l (Z.of_nat k)) as (b & Hb & Hn);
    [unfold len; lia |].
  rewrite Nat2Z.id in Hn. split; [unfold len; lia | congruence].
Qed.

Lemma EGreedy_choose_ok (self : BanditAlgorithm) (epsilon : Q) (g : rng) :
  consistent self -> 1 <= num self ->
  exists (i : Z) (g' : rng),
    EGreedy_choose self epsilon g = (Ok i, g') /\ 0 <= i < num self.
Proof.
  intros (_ & Hlq & _ & _) Hnum. rewrite EGreedy_choose_branch.
  destruct (Qltb epsilon (sample g 0)).
  - destruct (random_randrange_ok (num self) (after_draws g 1)) as (i & Hi & Hr);
      [lia | eauto].
  - assert (Hlen : len (ctr self) = num self) by (unfold len; lia).
    destruct (py_max_In (ctr self)) as (m & Hm & Hin).
    { intros E. rewrite E in Hlen. unfold len in Hlen. simpl in Hlen. lia. }
    destruct (maxarms_of_spec (ctr self) m (range (num self)))
      as (l & Hl & Hsub & Hall).
    { intros i Hi. apply range_In in Hi. lia. }
    destruct (In_getitem _ _ Hin) as (k & Hk & Hgk).
    assert (Hkl : In k l).
    { apply (Hall k m); auto; [apply range_In; lia |].
      apply Qgeb_le, Qle_refl. }
    destruct (random_choice_ok l (after_draws g 1)) as (i & Hi & Hil).
    { intros E. now rewrite E in Hkl. }
    unfold bind, lift. rewrite Hm, Hl, Hi. exists i. eexists.
    split; [reflexivity |]. apply range_In. auto.
Qed.

Lemma consistent_arm (self : BanditAlgorithm) (i : Z) :
  consistent self -> 0 <= i < num self ->
  exists (c d : Z) (q : Q),
    getitem (clicked self) i = Ok c /\
    getitem (displayed self) i = Ok d /\
    getitem (ctr self) i = Ok q /\
    0 <= c <= d /\ (0 <= q <= 1)%Q /\ d <= py_sum (displayed self).
Proof.
  intros Hcons Hi. destruct (consistent_lengths _ Hcons) as [Hlc Hlq].
  destruct Hcons as (Hld & _ & H2 & Hr).
  destruct (getitem_inrange (displayed self) i) as (d & Hd & Hnd);
    [unfold len; lia |].
  destruct (getitem_inrange (clicked self) i) as (c & Hc & Hnc);
    [unfold len; lia |].
  destruct (getitem_inrange (ctr self) i) as (q & Hq & Hnq);
    [unfold len; lia |].
  exists c, d, q. repeat split; auto.
  - apply (Forall2_nth_error _ _ _ _ _ _ H2 Hnc Hnd).
  - apply (Forall2_nth_error _ _ _ _ _ _ H2 Hnc Hnd).
  - apply nth_error_In in Hnq. rewrite Forall_forall in Hr.
    apply (Hr q Hnq).
  - apply nth_error_In in Hnq. rewrite Forall_forall in Hr.
    apply (Hr q Hnq).
  - eapply py_sum_nth_le; eassumption.
Qed.

Lemma rnd_above_grid (k : Z) (x : Q) :
  0 <= k <= 2 ^ 52 -> (k # 1048576 <= x)%Q -> (k # 1048576 <= rnd x)%Q.
Proof.
  intros Hk Hx. rewrite <- (rnd_exact k Hk). now apply rnd_mono.
Qed.

Lemma grid_succ (d : Z) :
  ((d * 1048576 + 1) # 1048576 == inject_Z d + (1 # 1048576))%Q.
Proof. unfold Qeq, Qplus, inject_Z; simpl. lia. Qed.

Lemma consistent_beta_ready (self : BanditAlgorithm) (alpha beta : Q) :
  consistent self ->
  (1 # 1048576 <= alpha)%Q -> (1 # 1048576 <= beta)%Q ->
  py_sum (displayed self) < 2 ^ 32 ->
  Forall (beta_ready self alpha beta) (range (num self)).
Proof.
  intros Hcons Ha Hb Hsum. apply Forall_forall. intros i Hi.
  apply range_In in Hi.
  destruct (consistent_arm self i Hcons Hi)
    as (c & d & q & Hc & Hd & _ & Hcd & _ & Hle).
  exists c, d. repeat split; auto.
  - unfold fadd. pose proof (inject_Z_nonneg c ltac:(lia)) as Hc0.
    assert (H : (1 # 1048576 <= rnd (alpha + inject_Z c))%Q)
      by (apply rnd_above_grid; [lia | lra]).
    lra.
  - unfold fsub, fadd.
    pose proof (inject_Z_nonneg c ltac:(lia)) as Hc0.
    assert (Hcd' : (inject_Z c <= inject_Z d)%Q) by (rewrite <- Zle_Qle; lia).
    assert (H1 : ((d * 1048576 + 1) # 1048576 <= rnd (beta + inject_Z d))%Q).
    { apply rnd_above_grid; [lia |]. rewrite grid_succ. lra. }
    rewrite grid_succ in H1.
    assert (H2 : (1 # 1048576
                  <= rnd (rnd (beta + inject_Z d) - inject_Z c))%Q)
      by (apply rnd_above_grid; [lia | lra]).
    lra.
Qed.

Lemma ThomsonSampling_choose_ok (self : BanditAlgorithm) (alpha beta : Q)
    (g : rng) :
  consistent self -> 1 <= num self ->
  policy_ready (ThomsonSampling alpha beta) (py_sum (displayed self)) ->
  exists (i : Z) (g' : rng),
    ThomsonSampling_choose self alpha beta g = (Ok i, g') /\
    0 <= i < num self.
Proof.
  intros Hcons Hnum (Ha & Hb & Hsum).
  pose proof (consistent_beta_ready self alpha beta Hcons Ha Hb Hsum) as Hr.
  destruct (ThomsonSampling_loop_spec self alpha beta _ Hr 0%Q 0 g)
    as (r & Hloop & Hcases).
  exists r. eexists. split; [exact Hloop |].
  destruct Hcases as [[-> _] | (k & _ & Hn & _)]; [lia |].
  apply range_nth_error in Hn. lia.
Qed.

Lemma first_undisplayed_total (self : BanditAlgorithm) (idx : list Z) :
  (forall i, In i idx -> 0 <= i < len (displayed self)) ->
  (exists i, first_undisplayed self idx = Ok (Some i) /\ In i idx) \/
  (first_undisplayed self idx = Ok None /\
   forall i, In i idx ->
     exists d, getitem (displayed self) i = Ok d /\ d <> 0).
Proof.
  induction idx as [| i idx IH]; intros Hin.
  - right. split; [reflexivity |]. intros ? [].
  - destruct (getitem_inrange _ i (Hin i (or_introl eq_refl)))
      as (d & Hd & _).
    simpl. rewrite Hd. simpl. destruct (d =? 0) eqn:E.
    + left. exists i. auto.
    + apply Z.eqb_neq in E.
      destruct IH as [(j & Hj & Hjin) | (Hnone & Hall)];
        [intros j Hj; apply Hin; now right | left; eauto | right].
      split; [assumption |]. intros j [<- | Hj]; eauto.
Qed.

Lemma argmax_loop_ok (theta_of : Z -> outcome Q) (idx : list Z) :
  (forall i, In i idx -> exists q, theta_of i = Ok q) ->
  forall (mt : Q) (mi : Z),
  exists r : Z, argmax_loop theta_of idx mt mi = Ok r /\ (r = mi \/ In r idx).
Proof.
  induction idx as [| i idx IH]; intros Hin mt mi.
  - exists mi. auto.
  - destruct (Hin i (or_introl eq_refl)) as (q & Hq).
    assert (Hin' : forall j, In j idx -> exists q, theta_of j = Ok q)
      by (intros j Hj; apply Hin; now right).
    simpl. rewrite Hq. simpl. destruct (Qltb mt q).
    + destruct (IH Hin' q i) as (r & -> & [-> | Hr]); eexists; simpl; eauto.
    + destruct (IH Hin' mt mi) as (r & -> & [-> | Hr]); eexists; simpl; eauto.
Qed.

Lemma UCB1_theta_ok (self : BanditAlgorithm) (i : Z) :
  consistent self -> 0 <= i < num self ->
  (exists d, getitem (displayed self) i = Ok d /\ d <> 0) ->
  exists q : Q, UCB1_theta self (py_sum (displayed self)) i = Ok q.
Proof.
  intros Hcons Hi (d0 & Hd0 & Hnz).
  destruct (consistent_arm self i Hcons Hi)
    as (c & d & q & Hc & Hd & _ & Hcd & _ & Hle).
  assert (d0 = d) by congruence. subst d0.
  destruct (truediv_rate c d) as [Hdiv _]; [lia | lia |].
  destruct (log_ok (py_sum (displayed self))) as [Hlog Hl]; [lia |].
  destruct (fdiv_nonneg (fmul 2 (math_log (py_sum (displayed self)))) d)
    as (x & Hx & Hx0); [apply rnd_nonneg; lra | lia |].
  unfold UCB1_theta. rewrite Hc, Hd. simpl. rewrite Hdiv, Hlog. simpl.
  rewrite Hx. simpl. rewrite (sqrt_ok x Hx0). simpl. eauto.
Qed.

Lemma UCB1Tuned_theta_ok (self : BanditAlgorithm) (i : Z) :
  consistent self -> 0 <= i < num self ->
  (exists d, getitem (displayed self) i = Ok d /\ d <> 0) ->
  exists q : Q, UCB1Tuned_theta self (py_sum (displayed self)) i = Ok q.
Proof.
  intros Hcons Hi (d0 & Hd0 & Hnz).
  destruct (consistent_arm self i Hcons Hi)
    as (c & d & q & Hc & Hd & _ & Hcd & _ & Hle).
  assert (d0 = d) by congruence. subst d0.
  destruct (truediv_rate c d) as [Hdiv _]; [lia | lia |].
  destruct (log_ok (py_sum (displayed self))) as [Hlog Hl]; [lia |].
  destruct (fdiv_nonneg (fmul 2 (math_log (py_sum (displayed self)))) d)
    as (x & Hx & Hx0); [apply rnd_nonneg; lra | lia |].
  destruct (fdiv_nonneg (math_log (py_sum (displayed self))) d)
    as (y & Hy & Hy0); [assumption | lia |].
  assert (Hv : exists v, truediv (c * (d - c)) (Z.max 1 d ^ 2) = Ok v).
  { unfold truediv.
    replace (Z.max 1 d ^ 2 =? 0) with false; [eauto |].
    symmetry. apply Z.eqb_neq. nia. }
  destruct Hv as (v & Hv).
  unfold UCB1Tuned_theta. rewrite Hc, Hd. cbn [obind].
  rewrite Hv, Hlog. cbn [obind]. rewrite Hx. cbn [obind].
  rewrite (sqrt_ok x Hx0), Hdiv. cbn [obind].
  rewrite Hy. cbn [obind]. rewrite (sqrt_ok y Hy0). cbn [obind]. eauto.
Qed.

Lemma UCB_choose_ok (self : BanditAlgorithm)
    (theta : BanditAlgorithm -> Z -> Z -> outcome Q) :
  consistent self -> 1 <= num self ->
  (forall i, 0 <= i < num self ->
     (exists d, getitem (displayed self) i = Ok d /\ d <> 0) ->
     exists q, theta self (py_sum (displayed self)) i = Ok q) ->
  exists i : Z,
    (cold <~ first_undisplayed self (range (num self)) ;;
     match cold with
     | Some i => Ok i
     | None => argmax_loop (theta self (py_sum (displayed self)))
                 (range (num self)) 0%Q 0
     end) = Ok i /\ 0 <= i < num self.
Proof.
  intros Hcons Hnum Htheta.
  destruct (first_undisplayed_total self (range (num self)))
    as [(i & -> & Hi) | (-> & Hall)].
  - intros i Hi. apply range_In in Hi. destruct Hcons as (Hl & _).
    unfold len. lia.
  - exists i. split; [reflexivity | now apply range_In].
  - destruct (argmax_loop_ok (theta self (py_sum (displayed self)))
                (range (num self))) with (mt := 0%Q) (mi := 0)
      as (r & Hr & Hcases).
    { intros i Hi. apply Htheta; [now apply range_In | now apply Hall]. }
    exists r. split; [exact Hr |].
    destruct Hcases as [-> | Hin]; [lia | now apply range_In].
Qed.

(** Every policy chooses an arm that exists. *)
Lemma choose_ok (self : BanditAlgorithm) (g : rng) :
  consistent self -> 1 <= num self ->
  policy_ready (policy self) (py_sum (displayed self)) ->
  exists (i : Z) (g' : rng), choose self g = (Ok i, g') /\ 0 <= i < num self.
Proof.
  intros Hcons Hnum Hready. unfold choose.
  destruct (policy self) as [epsilon | | alpha beta | |].
  - now apply EGreedy_choose_ok.
  - destruct (random_randrange_ok (num self) g) as (i & Hi & Hr);
      [lia | unfold Random_choose; eauto].
  - now apply ThomsonSampling_choose_ok.
  - destruct (UCB_choose_ok self UCB1_theta Hcons Hnum) as (i & Hi & Hr).
    { intros i Hi. now apply UCB1_theta_ok. }
    exists i, g. unfold lift, UCB1_choose. now rewrite Hi.
  - destruct (UCB_choose_ok self UCB1Tuned_theta Hcons Hnum)
      as (i & Hi & Hr).
    { intros i Hi. now apply UCB1Tuned_theta_ok. }
    exists i, g. unfold lift, UCB1Tuned_choose. now rewrite Hi.
Qed.

End Progress.

(** ** The loops *)

Section Loops.
Context {FM : FloatModel}.

Lemma collect_invariant {St A} (I : St -> Prop) (body : M St A) :
  (forall s, I s -> I (snd (body s))) ->
  forall (n : nat) (s : St), I s -> I (snd (collect n body s)).
Proof.
  intros Hbody. induction n as [| n IH]; intros s Hs; [exact Hs |].
  simpl. unfold bind at 1. specialize (Hbody s Hs).
  destruct (body s) as [[a | e] s1]; [| exact Hbody].
  unfold bind at 1. specialize (IH s1 Hbody).
  destruct (collect n body s1) as [[l | e] s2]; exact IH.
Qed.

Lemma collect_app {St A} (body : M St A) (a b : nat) (s : St) :
  collect (a + b) body s =
    (l1 <- collect a body ;; l2 <- collect b body ;; ret (l1 ++ l2)) s.
Proof.
  revert s. induction a as [| a IH]; intros s.
  - simpl. unfold bind at 2, ret at 1. unfold bind.
    destruct (collect b body s) as [[l | e] s']; reflexivity.
  - simpl. unfold bind. destruct (body s) as [[x | e] s1]; auto.
    rewrite IH. unfold bind.
    destruct (collect a body s1) as [[l1 | e] s2]; auto.
    unfold ret. cbv iota beta.
    destruct (collect b body s2) as [[l2 | e] s3]; auto.
Qed.

(** A loop whose body succeeds while a counter [t] is below a bound, and
    advances it by [inc]: it succeeds as long as the bound allows. *)
Lemma collect_ok {St A} (P : Z -> St -> Prop) (R : A -> Prop) (body : M St A)
    (inc bound : Z) :
  0 <= inc ->
  (forall t s, t + inc <= bound -> P t s ->
     exists a s', body s = (Ok a, s') /\ R a /\ P (t + inc) s') ->
  forall (n : nat) (t : Z) (s : St),
    t + Z.of_nat n * inc <= bound -> P t s ->
    exists l s', collect n body s = (Ok l, s') /\
                 length l = n /\ Forall R l /\ P (t + Z.of_nat n * inc) s'.
Proof.
  intros Hinc Hbody. induction n as [| n IH]; intros t s Hb Hs.
  - exists [], s. simpl. replace (t + 0) with t by lia. auto.
  - destruct (Hbody t s ltac:(nia) Hs) as (a & s1 & Ha & Hr & Hs1).
    destruct (IH (t + inc) s1 ltac:(nia) Hs1) as (l & s2 & Hl & Hlen & HR & Hs2).
    exists (a :: l), s2. simpl collect. unfold bind. rewrite Ha, Hl.
    split; [reflexivity |]. split; [simpl; congruence |].
    split; [now constructor |].
    replace (t + Z.of_nat (S n) * inc) with (t + inc + Z.of_nat n * inc)
      by lia.
    assumption.
Qed.

Lemma policy_ready_le (p : Policy) (t t' : Z) :
  t <= t' -> policy_ready p t' -> policy_ready p t.
Proof.
  intros Hle. destruct p; simpl; auto. intros (Ha & Hb & Ht).
  repeat split; auto. lia.
Qed.

Lemma step_ok (arms : Arms) (n : Z) (p : Policy) (t : Z) (w : world) :
  1 <= n -> Arms_num arms = n -> policy_ready p t ->
  running n p t (alg w) ->
  exists (q : Q) (w' : world),
    step arms w = (Ok q, w') /\ (0 <= q <= 1)%Q /\
    running n p (t + 1) (alg w').
Proof.
  intros Hn Harms Hready (Hcons & Hnum & Hpol & Hsum).
  destruct (step_spec arms w Hcons) as (Hcons' & Hnum' & Hpol' & Hprog).
  destruct (choose_ok (alg w) (gen w)) as (i & g' & Hch & Hi);
    [assumption | lia | now rewrite Hpol, Hsum |].
  destruct (Hprog i g' Hch Hi) as (q & Hq & Hrate & Hsum'); [congruence |].
  exists q, (snd (step arms w)). split.
  - rewrite <- Hq. apply surjective_pairing.
  - split; [assumption |].
    split; [assumption | split; [congruence | split; [congruence | lia]]].
Qed.

Lemma step_consistent (arms : Arms) (w : world) :
  consistent (alg w) -> consistent (alg (snd (step arms w))).
Proof. intros H. apply (step_spec arms w H). Qed.

Lemma trial_consistent (arms : Arms) (maxtime : Z) (w : world) :
  consistent (alg w) -> consistent (alg (snd (trial arms maxtime w))).
Proof.
  apply (collect_invariant (fun w => consistent (alg w))).
  apply step_consistent.
Qed.

Lemma trial_ok (arms : Arms) (n : Z) (p : Policy) (maxtime bound t : Z)
    (w : world) :
  1 <= n -> Arms_num arms = n -> 0 <= maxtime ->
  policy_ready p bound -> t + maxtime <= bound ->
  running n p t (alg w) ->
  exists (ctrs : list Q) (w' : world),
    trial arms maxtime w = (Ok ctrs, w') /\
    (len ctrs = maxtime /\ Forall (fun q => (0 <= q <= 1)%Q) ctrs) /\
    running n p (t + maxtime) (alg w').
Proof.
  intros Hn Harms Hmax Hready Hb Hrun. unfold trial.
  destruct (collect_ok (fun t w => running n p t (alg w))
              (fun q => (0 <= q <= 1)%Q) (step arms) 1 bound ltac:(lia))
    with (n := Z.to_nat maxtime) (t := t) (s := w)
    as (l & w' & Hl & Hlen & HR & Hrun'); auto; [| lia |].
  - intros t0 s Ht0 Hs. apply step_ok; auto.
    apply (policy_ready_le p t0 bound); [lia | assumption].
  - exists l, w'. unfold len. rewrite Hlen.
    replace (t + Z.of_nat (Z.to_nat maxtime) * 1) with (t + maxtime)
      in Hrun' by lia.
    split; [exact Hl |]. split; [split; [lia | assumption] | assumption].
Qed.

Lemma tries_of_ok (arms : Arms) (n : Z) (p : Policy) (maxtime num_tries t : Z)
    (w : world) :
  1 <= n -> Arms_num arms = n -> 0 <= maxtime -> 0 <= num_tries ->
  policy_ready p (t + num_tries * maxtime) ->
  running n p t (alg w) ->
  exists (tries : list (list Q)) (w' : world),
    tries_of arms maxtime num_tries w = (Ok tries, w') /\
    len tries = num_tries /\
    Forall (fun ctrs => len ctrs = maxtime /\
                        Forall (fun q => (0 <= q <= 1)%Q) ctrs) tries /\
    running n p (t + num_tries * maxtime) (alg w').
Proof.
  intros Hn Harms Hmax Htries Hready Hrun. unfold tries_of.
  destruct (collect_ok (fun t w => running n p t (alg w))
              (fun ctrs => len ctrs = maxtime /\
                           Forall (fun q => (0 <= q <= 1)%Q) ctrs)
              (trial arms maxtime) maxtime (t + num_tries * maxtime) Hmax)
    with (n := Z.to_nat num_tries) (t := t) (s := w)
    as (l & w' & Hl & Hlen & HR & Hrun'); auto; [| lia |].
  - intros t0 s Ht0 Hs. eapply trial_ok; eauto.
  - exists l, w'. unfold len. rewrite Hlen.
    replace (t + Z.of_nat (Z.to_nat num_tries) * maxtime)
      with (t + num_tries * maxtime) in Hrun' by lia.
    split; [exact Hl |]. split; [lia |]. split; assumption.
Qed.

End Loops.

(** ** The state along the run *)

Section Run.
Context {FM : FloatModel}.

Lemma py_sum_repeat (k : nat) : py_sum (repeat 0 k) = 0.
Proof.
  induction k as [| k IH]; [reflexivity |].
  simpl repeat. rewrite py_sum_cons, IH. reflexivity.
Qed.

Lemma init_running (n : Z) (p : Policy) :
  running n p 0 (BanditAlgorithm_init n p).
Proof.
  unfold running, consistent, BanditAlgorithm_init, times; simpl.
  rewrite !repeat_length, py_sum_repeat. repeat split.
  - induction (Z.to_nat n); simpl; constructor; auto; lia.
  - induction (Z.to_nat n); simpl; constructor; auto. split; lra.
Qed.

Lemma consistent_arm_bounds (a : BanditAlgorithm) :
  consistent a -> arm_bounds a.
Proof.
  intros Hcons i Hi.
  destruct (consistent_arm a i Hcons Hi)
    as (c & d & q & Hc & Hd & Hq & Hcd & Hr & _).
  exists c, d, q. repeat split; auto; try lia; apply Hr.
Qed.

Lemma display_consistent (w : world) :
  consistent (alg w) -> consistent (alg (snd (display w))).
Proof.
  intros Hcons. pose proof (display_spec w Hcons) as Hd.
  destruct (choose (alg w) (gen w)) as [[i | e] g1];
    [| now rewrite Hd].
  destruct (position (displayed (alg w)) i) as [k | e]; [| now rewrite Hd].
  destruct Hd as (c & d & Hnc & Hnd & ->).
  now apply displayed_once_consistent.
Qed.

Lemma tries_of_consistent (arms : Arms) (maxtime num_tries : Z) (w : world) :
  consistent (alg w) ->
  consistent (alg (snd (tries_of arms maxtime num_tries w))).
Proof.
  apply (collect_invariant (fun w => consistent (alg w))).
  intros s. apply trial_consistent.
Qed.

(** C3: at every time step of every try, for every policy, each arm [i]
    has [0 <= clicked[i] <= displayed[i]] and [0 <= ctr[i] <= 1]; and the
    same holds between the [display] and the [reward] of the next step. *)
Theorem counters_in_bounds (p : Policy) (n : Z) (arms : Arms)
    (maxtime j : Z) (t : nat) (g : rng) :
  arm_bounds (alg (world_at p n arms maxtime j t g)) /\
  arm_bounds (alg (snd (display (world_at p n arms maxtime j t g)))).
Proof.
  assert (H : consistent (alg (world_at p n arms maxtime j t g))).
  { unfold world_at, trial_start.
    apply (collect_invariant (fun w => consistent (alg w)));
      [apply step_consistent |].
    apply tries_of_consistent. apply init_running. }
  split; apply consistent_arm_bounds; [| apply display_consistent]; exact H.
Qed.

Lemma collect_succ_state {St A} (body : M St A) (a : nat) (s s1 : St)
    (l : list A) :
  collect a body s = (Ok l, s1) ->
  snd (collect (a + 1) body s) = snd (body s1).
Proof.
  intros H. rewrite collect_app. unfold bind at 1. rewrite H.
  simpl. unfold bind, ret. destruct (body s1) as [[x | e] s2]; reflexivity.
Qed.

(** C2, as the code has it: the algorithm object is built once and all its
    tries run on it.  Try 0 starts on the new object; try [j + 1] starts in
    the state try [j] ended in; so try [j] starts with [j * maxtime]
    displays already counted. *)
Theorem trials_continue (p : Policy) (n : Z) (arms : Arms) (maxtime j : Z)
    (g : rng) :
  1 <= n -> Arms_num arms = n -> 0 <= maxtime -> 0 <= j ->
  policy_ready p (j * maxtime) ->
  let w0 := mkWorld (BanditAlgorithm_init n p) g in
  trial_start arms maxtime 0 w0 = w0 /\
  trial_start arms maxtime (j + 1) w0
    = snd (trial arms maxtime (trial_start arms maxtime j w0)) /\
  py_sum (displayed (alg (trial_start arms maxtime j w0))) = j * maxtime.
Proof.
  intros Hn Harms Hmax Hj Hready w0.
  destruct (tries_of_ok arms n p maxtime j 0 w0)
    as (tries & w' & Htries & _ & _ & (_ & _ & _ & Hsum)); auto;
    [apply init_running |].
  unfold trial_start. split; [reflexivity |]. split.
  - unfold tries_of in *.
    replace (Z.to_nat (j + 1)) with (Z.to_nat j + 1)%nat by lia.
    rewrite (collect_succ_state _ _ _ _ _ Htries). now rewrite Htries.
  - rewrite Htries. simpl. lia.
Qed.

End Run.

(** C2, as stated, fails: with two tries of one step each, the second try
    starts on an object that has already displayed an arm. *)
Lemma trials_not_fresh :
  ~ fresh_every_trial (FM := exact_float) UCB1 3 three_arms 1 2
      (mkRng sevenths 0).
Proof.
  intros H. specialize (H 1 ltac:(lia)). vm_compute in H. discriminate H.
Qed.

(** ** The averaged series *)

Section Series.
Context {FM : FloatModel}.
















End Series.


(** ** The statements at work, in exact arithmetic *)


Lemma ThomsonSampling_init_spec_witness :
  ThomsonSampling_init 3 0 1 = Raise AssertionError /\
  ThomsonSampling_init 3 1 (-1) = Raise AssertionError /\
  ThomsonSampling_init 3 1 1 =
    Ok (mkAlg 3 [0; 0; 0] [0; 0; 0] [0%Q; 0%Q; 0%Q] (ThomsonSampling 1 1)).
Proof.
  split; [| split].
  - apply (proj1 (ThomsonSampling_init_spec 3 0 1)). left.
    unfold Qle; simpl; lia.
  - apply (proj1 (ThomsonSampling_init_spec 3 1 (-1))). right.
    unfold Qle; simpl; lia.
  - apply (proj2 (ThomsonSampling_init_spec 3 1 1)).
    split; unfold Qlt; simpl; lia.
Defined.

Lemma ThomsonSampling_choose_spec_witness :
  exists r : Z,
    ThomsonSampling_choose (FM := exact_float)
        (BanditAlgorithm_init 3 (ThomsonSampling 1 1)) 1 1 (mkRng sevenths 0)
      = (Ok r, after_draws (mkRng sevenths 0) 3) /\
    ((r = 0 /\
      forall k, (k < 3)%nat -> (sample (mkRng sevenths 0) k <= 0)%Q) \/
     (exists k, (k < 3)%nat /\ r = Z.of_nat k /\
        (0 < sample (mkRng sevenths 0) k)%Q /\
        (forall j, (j < k)%nat ->
           (sample (mkRng sevenths 0) j < sample (mkRng sevenths 0) k)%Q) /\
        (forall j, (j < 3)%nat ->
           (sample (mkRng sevenths 0) j <= sample (mkRng sevenths 0) k)%Q))).
Proof.
  apply (ThomsonSampling_choose_spec (FM := exact_float)
           (BanditAlgorithm_init 3 (ThomsonSampling 1 1)) 1 1
           (mkRng sevenths 0)).
  change (range (num (BanditAlgorithm_init 3 (ThomsonSampling 1 1))))
    with [0; 1; 2].
  repeat (constructor;
          [exists 0, 0; split; [| split; [| split]]; reflexivity |]).
  constructor.
Defined.

Lemma UCB_cold_start_witness :
  choose (FM := exact_float) (mkAlg 3 [1; 0; 0] [0; 0; 0] [0; 0; 0]%Q UCB1)
      (mkRng sevenths 0) = (Ok 1, mkRng sevenths 0) /\
  first_three_displays (FM := exact_float) UCB1Tuned true false true
      (mkRng sevenths 0) = Ok [0; 1; 2].
Proof.
  split.
  - apply (proj1 (UCB_cold_start (FM := exact_float))
             (mkAlg 3 [1; 0; 0] [0; 0; 0] [0; 0; 0]%Q UCB1) 1
             (mkRng sevenths 0)).
    + left; reflexivity.
    + reflexivity.
    + simpl; lia.
    + reflexivity.
    + intros j Hj. assert (j = 0) by lia. subst j. discriminate.
  - apply (proj2 (UCB_cold_start (FM := exact_float))). right; reflexivity.
Defined.

Lemma trials_continue_witness :
  let w0 := mkWorld (BanditAlgorithm_init 3 (ThomsonSampling 1 1))
                    (mkRng sevenths 0) in
  trial_start (FM := exact_float) three_arms 2 0 w0 = w0 /\
  trial_start (FM := exact_float) three_arms 2 (1 + 1) w0
    = snd (trial three_arms 2 (trial_start three_arms 2 1 w0)) /\
  py_sum (displayed (alg (trial_start (FM := exact_float) three_arms 2 1 w0)))
    = 1 * 2.
Proof.
  apply (trials_continue (FM := exact_float) (ThomsonSampling 1 1) 3
           three_arms 2 1 (mkRng sevenths 0)); try reflexivity; try lia.
  simpl. repeat split; try lia; unfold Qle; simpl; lia.
Defined.


(** * Further properties of the code *)

(** ** Arms.choose, Random.choose *)

(** [Arms.choose] rejects an index outside [[0, num)] by its [assert],
    without drawing; inside, it draws once and reports a click exactly when
    the draw is below the arm's probability, so never for a probability
    [<= 0] and always for a probability [>= 1]. *)
Theorem Arms_choose_spec (arms : Arms) (i : Z) (g : rng) :
  (~ 0 <= i < Arms_num arms ->
     Arms_choose arms i g = (Raise AssertionError, g)) /\
  (0 <= i < Arms_num arms ->
     exists p : Q,
       getitem (ps arms) i = Ok p /\
       Arms_choose arms i g = (Ok (Qltb (sample g 0) p), after_draws g 1) /\
       ((p <= 0)%Q -> Qltb (sample g 0) p = false) /\
       ((1 <= p)%Q -> Qltb (sample g 0) p = true)).
Proof.
  unfold Arms_choose. split; intros Hi.
  - replace ((0 <=? i) && (i <? Arms_num arms)) with false; [reflexivity |].
    symmetry. apply andb_false_iff. lia.
  - replace ((0 <=? i) && (i <? Arms_num arms)) with true
      by (symmetry; apply andb_true_iff; lia).
    destruct (getitem_inrange (ps arms) i Hi) as (p & Hp & _).
    exists p. split; [assumption |].
    unfold bind, lift, random_random, ret. rewrite Hp, draw_sample.
    split; [reflexivity |].
    pose proof (sample_range g 0) as [H0 H1]. split; intros H.
    + apply Qltb_ge. lra.
    + apply Qltb_lt. lra.
Qed.

(** [Random.choose] raises [ValueError] without drawing when there is no
    arm, and otherwise draws once and returns an arm that exists. *)
Theorem Random_choose_spec (self : BanditAlgorithm) (g : rng) :
  (num self <= 0 -> Random_choose self g = (Raise ValueError, g)) /\
  (1 <= num self ->
     exists i : Z,
       Random_choose self g = (Ok i, after_draws g 1) /\
       0 <= i < num self).
Proof.
  unfold Random_choose. split; intros Hn.
  - unfold random_randrange.
    replace (num self <=? 0) with true by (symmetry; apply Z.leb_le; lia).
    reflexivity.
  - apply random_randrange_ok. lia.
Qed.

(** ** EGreedy.choose: what exploiting returns *)

Lemma py_max_upper (l : list Q) (m : Q) :
  py_max l = Ok m -> forall y, In y l -> (y <= m)%Q.
Proof.
  destruct l as [| x t]; [discriminate |]. simpl. intros [= <-].
  assert (H : forall t x,
             (x <= fold_left (fun m y => if Qltb m y then y else m) t x)%Q /\
             forall y, In y t ->
               (y <= fold_left (fun m y => if Qltb m y then y else m) t x)%Q).
  { clear. induction t as [| z t IH]; intros x; simpl.
    - split; [apply Qle_refl | intros ? []].
    - destruct (Qltb x z) eqn:E.
      + apply Qltb_lt in E. destruct (IH z) as [Hz Hall]. split; [lra |].
        intros y [<- | Hy]; auto.
      + apply Qltb_ge in E. destruct (IH x) as [Hx Hall]. split; [lra |].
        intros y [<- | Hy]; [lra | auto]. }
  intros y [<- | Hy]; [apply (proj1 (H t x)) | now apply (proj2 (H t x))].
Qed.

Lemma maxarms_of_sound (c : list Q) (maxctr : Q) (idx l : list Z) :
  maxarms_of c maxctr idx = Ok l ->
  forall i, In i l ->
    exists x, getitem c i = Ok x /\ (maxctr <= x)%Q.
Proof.
  revert l. induction idx as [| j idx IH]; intros l; simpl.
  - intros [= <-] i [].
  - destruct (getitem c j) as [x |] eqn:Hx; [| discriminate]. simpl.
    destruct (maxarms_of c maxctr idx) as [rest |]; [| discriminate]. simpl.
    destruct (Qgeb x maxctr) eqn:E; intros [= <-] i Hi.
    + destruct Hi as [<- | Hi]; [| eapply IH; eauto].
      exists x. split; [assumption | now apply Qgeb_le].
    + eapply IH; eauto.
Qed.

(** When the draw of [random.random()] is not above [epsilon],
    [EGreedy.choose] draws once more and returns an arm that exists and
    whose [ctr] is the largest: no arm has a larger one. *)
Theorem EGreedy_exploit_maximal (self : BanditAlgorithm) (epsilon : Q)
    (g : rng) :
  len (ctr self) = num self -> 1 <= num self ->
  (sample g 0 <= epsilon)%Q ->
  exists (i : Z) (x : Q),
    EGreedy_choose self epsilon g = (Ok i, after_draws g 2) /\
    0 <= i < num self /\
    getitem (ctr self) i = Ok x /\
    forall (j : Z) (y : Q), getitem (ctr self) j = Ok y -> (y <= x)%Q.
Proof.
  intros Hlen Hnum Hdraw. rewrite EGreedy_choose_branch.
  apply Qltb_ge in Hdraw. rewrite Hdraw.
  destruct (py_max_In (ctr self)) as (m & Hm & Hin).
  { intros E. rewrite E in Hlen. unfold len in Hlen. simpl in Hlen. lia. }
  destruct (maxarms_of_spec (ctr self) m (range (num self)))
    as (l & Hl & Hsub & Hall).
  { intros i Hi. apply range_In in Hi. lia. }
  destruct (In_getitem _ _ Hin) as (k & Hk & Hgk).
  assert (Hkl : In k l).
  { apply (Hall k m); auto; [apply range_In; lia |].
    apply Qgeb_le, Qle_refl. }
  destruct (random_choice_ok l (after_draws g 1)) as (i & Hi & Hil).
  { intros E. now rewrite E in Hkl. }
  destruct (maxarms_of_sound _ _ _ _ Hl i Hil) as (x & Hx & Hmx).
  exists i, x. split.
  { unfold bind, lift. rewrite Hm, Hl, Hi, after_after. reflexivity. }
  split; [apply range_In; auto |]. split; [assumption |].
  intros j y Hy. apply getitem_position in Hy. destruct Hy as (kk & _ & Hn).
  apply nth_error_In in Hn.
  pose proof (py_max_upper _ _ Hm y Hn). lra.
Qed.

(** ** display and one step, in detail *)

Section Steps.
Context {FM : FloatModel}.

(** On consistent counters, with at least one arm and a policy that is
    ready, [display] succeeds: the arm [i] it returns exists; [displayed[i]]
    is one more than before and [ctr[i]] is recomputed from it; no other
    entry, and nothing of [clicked], changes. *)
Theorem display_effect (w : world) :
  consistent (alg w) -> 1 <= num (alg w) ->
  policy_ready (policy (alg w)) (py_sum (displayed (alg w))) ->
  exists (i : Z) (g' : rng) (c d : Z),
    choose (alg w) (gen w) = (Ok i, g') /\
    0 <= i < num (alg w) /\
    getitem (clicked (alg w)) i = Ok c /\
    getitem (displayed (alg w)) i = Ok d /\
    display w =
      (Ok i,
       mkWorld (mkAlg (num (alg w))
                      (replace (displayed (alg w)) (Z.to_nat i) (d + 1))
                      (clicked (alg w))
                      (replace (ctr (alg w)) (Z.to_nat i)
                               (rnd (inject_Z c / inject_Z (d + 1))))
                      (policy (alg w)))
               g').
Proof.
  intros Hcons Hnum Hready.
  destruct (choose_ok (alg w) (gen w) Hcons Hnum Hready)
    as (i & g' & Hch & Hi).
  pose proof (display_spec w Hcons) as Hd. rewrite Hch in Hd.
  assert (Hlen : len (displayed (alg w)) = num (alg w))
    by (destruct Hcons as (Hl & _); unfold len; lia).
  rewrite position_inrange in Hd by lia.
  destruct Hd as (c & d & Hnc & Hnd & Hd).
  destruct (consistent_lengths _ Hcons) as [Hlc _].
  destruct (getitem_inrange (clicked (alg w)) i) as (c' & Hc' & Hnc');
    [unfold len in *; lia |].
  destruct (getitem_inrange (displayed (alg w)) i) as (d' & Hd' & Hnd');
    [lia |].
  exists i, g', c, d. split; [exact Hch |]. split; [assumption |].
  split; [congruence |]. split; [congruence |]. exact Hd.
Qed.

Lemma step_cases (arms : Arms) (w : world) :
  consistent (alg w) ->
  match choose (alg w) (gen w) with
  | (Raise _, _) => alg (snd (step arms w)) = alg w
  | (Ok i, _) =>
      match position (displayed (alg w)) i with
      | Raise _ => alg (snd (step arms w)) = alg w
      | Ok k =>
          exists c d : Z,
            nth_error (clicked (alg w)) k = Some c /\
            nth_error (displayed (alg w)) k = Some d /\
            (alg (snd (step arms w)) = displayed_once (alg w) k c d \/
             alg (snd (step arms w))
               = clicked_once (displayed_once (alg w) k c d) k c (d + 1))
      end
  end.
Proof.
  intros Hcons. pose proof (display_spec w Hcons) as Hd.
  destruct (choose (alg w) (gen w)) as [[i | e] g1].
  2:{ unfold step, bind. now rewrite Hd. }
  destruct (position (displayed (alg w)) i) as [k | e] eqn:Hk.
  2:{ unfold step, bind. now rewrite Hd. }
  destruct Hd as (c & d & Hnc & Hnd & Hd).
  destruct (displayed_once_consistent _ k c d Hcons Hnc Hnd)
    as (Hcons1 & Hnd1 & Hlt & _).
  exists c, d. split; [assumption |]. split; [assumption |].
  set (a1 := displayed_once (alg w) k c d) in *.
  assert (Hk1 : position (displayed a1) i = Ok k)
    by (unfold a1, displayed_once; cbn [displayed];
        now rewrite position_replace).
  destruct (Arms_choose arms i g1) as [[b | e] g2] eqn:Harms.
  2:{ left. unfold step, bind, with_gen. rewrite Hd. cbn [alg gen].
      now rewrite Harms. }
  destruct b.
  - right.
    destruct (reward_spec (mkWorld a1 g2) i k c (d + 1))
      as [Hrew Hcons2]; auto.
    destruct (ctr_overall_rate (mkWorld (clicked_once a1 k c (d + 1)) g2))
      as (q & Hq & _); [exact Hcons2 |].
    cbn [alg gen] in *.
    unfold step, bind, with_gen. rewrite Hd. cbn [alg gen].
    now rewrite Harms, Hrew, Hq.
  - left.
    destruct (ctr_overall_rate (mkWorld a1 g2)) as (q & Hq & _);
      [exact Hcons1 |].
    unfold step, bind, with_gen. rewrite Hd. cbn [alg gen].
    now rewrite Harms, reward_false, Hq.
Qed.

Lemma nth_error_replace {A} (l : list A) (k j : nat) (v a : A) :
  nth_error (replace l k v) j = Some a ->
  (j = k /\ a = v) \/ (j <> k /\ nth_error l j = Some a).
Proof.
  intros H. destruct (Nat.eq_dec j k) as [-> | Hne].
  - left. split; [reflexivity |].
    assert (Hk : (k < length l)%nat).
    { rewrite <- (replace_length l k v). apply nth_error_Some. congruence. }
    rewrite nth_error_replace_same in H by assumption. congruence.
  - right. split; [assumption |].
    now rewrite nth_error_replace_other in H by assumption.
Qed.

Lemma displayed_once_current (a : BanditAlgorithm) (k : nat) (c d : Z) :
  consistent a -> ctr_current a ->
  nth_error (clicked a) k = Some c -> nth_error (displayed a) k = Some d ->
  ctr_current (displayed_once a k c d).
Proof.
  intros (_ & _ & H2 & _) Hcur Hnc Hnd j c' d' q.
  pose proof (Forall2_nth_error _ _ _ _ _ _ H2 Hnc Hnd) as Hcd.
  cbv beta in Hcd.
  unfold displayed_once; cbn [clicked displayed ctr]. intros Hc' Hd' Hq.
  apply nth_error_replace in Hd'. apply nth_error_replace in Hq.
  destruct Hd' as [[-> ->] | [Hne Hd']].
  - destruct Hq as [[_ ->] | [Hne _]]; [| congruence].
    assert (c' = c) by congruence. subst c'.
    now replace (d + 1 =? 0) with false by (symmetry; apply Z.eqb_neq; lia).
  - destruct Hq as [[-> _] | [_ Hq]]; [congruence |].
    now apply (Hcur j).
Qed.

Lemma clicked_once_current (a : BanditAlgorithm) (k : nat) (c d : Z) :
  ctr_current a -> 0 < d ->
  nth_error (displayed a) k = Some d ->
  ctr_current (clicked_once a k c d).
Proof.
  intros Hcur Hpos Hnd j c' d' q.
  unfold clicked_once; cbn [clicked displayed ctr]. intros Hc' Hd' Hq.
  apply nth_error_replace in Hc'. apply nth_error_replace in Hq.
  destruct Hc' as [[-> ->] | [Hne Hc']].
  - destruct Hq as [[_ ->] | [Hne _]]; [| congruence].
    assert (d' = d) by congruence. subst d'.
    now replace (d =? 0) with false by (symmetry; apply Z.eqb_neq; lia).
  - destruct Hq as [[-> _] | [_ Hq]]; [congruence |].
    now apply (Hcur j).
Qed.

Lemma step_current (arms : Arms) (w : world) :
  consistent (alg w) /\ ctr_current (alg w) ->
  consistent (alg (snd (step arms w))) /\
  ctr_current (alg (snd (step arms w))).
Proof.
  intros [Hcons Hcur]. split; [now apply step_consistent |].
  pose proof (step_cases arms w Hcons) as H.
  destruct (choose (alg w) (gen w)) as [[i | e] g1]; [| now rewrite H].
  destruct (position (displayed (alg w)) i) as [k | e]; [| now rewrite H].
  destruct H as (c & d & Hnc & Hnd & [-> | ->]).
  - now apply displayed_once_current.
  - destruct (displayed_once_consistent _ k c d Hcons Hnc Hnd)
      as ((_ & _ & H2 & _) & Hnd1 & Hlt & _).
    apply clicked_once_current; auto.
    + now apply displayed_once_current.
    + pose proof (Forall2_nth_error _ _ _ _ _ _ H2 Hnc Hnd1) as Hcd.
      cbv beta in Hcd. lia.
Qed.

Lemma init_current (n : Z) (p : Policy) :
  ctr_current (BanditAlgorithm_init n p).
Proof.
  intros k c d q. unfold BanditAlgorithm_init, times; simpl.
  intros _ Hd Hq. apply nth_error_In, repeat_spec in Hd.
  apply nth_error_In, repeat_spec in Hq. now subst.
Qed.

(** In the loop no [ctr] is ever stale: at every time step of every try,
    for every policy, [ctr[i]] is [0.0] for an arm never displayed and
    otherwise exactly the float quotient [clicked[i] / displayed[i]] of the
    current counters. *)
Theorem ctr_always_current (p : Policy) (n : Z) (arms : Arms)
    (maxtime j : Z) (t : nat) (g : rng) :
  ctr_current (alg (world_at p n arms maxtime j t g)).
Proof.
  unfold world_at, trial_start, tries_of, trial.
  apply (collect_invariant
           (fun w => consistent (alg w) /\ ctr_current (alg w)));
    [apply step_current |].
  apply (collect_invariant
           (fun w => consistent (alg w) /\ ctr_current (alg w))).
  - intros s. apply (collect_invariant
                       (fun w => consistent (alg w) /\ ctr_current (alg w))).
    apply step_current.
  - split; [apply init_running | apply init_current].
Qed.

End Steps.

(** ** UCB1 and UCB1Tuned: the first round *)

Section FirstRound.
Context {FM : FloatModel}.

Lemma nth_error_ones_zeros (t m j : nat) :
  nth_error (repeat 1 t ++ repeat 0 m) j =
    if (j <? t)%nat then Some 1
    else if (j <? t + m)%nat then Some 0 else None.
Proof.
  destruct (j <? t)%nat eqn:E1.
  - apply Nat.ltb_lt in E1.
    rewrite nth_error_app1 by (rewrite repeat_length; lia).
    apply nth_error_repeat. assumption.
  - apply Nat.ltb_ge in E1.
    rewrite nth_error_app2 by (rewrite repeat_length; lia).
    rewrite repeat_length.
    destruct (j <? t + m)%nat eqn:E2.
    + apply Nat.ltb_lt in E2. apply nth_error_repeat. lia.
    + apply Nat.ltb_ge in E2. apply nth_error_None.
      rewrite repeat_length. lia.
Qed.

Lemma replace_ones_zeros (t m : nat) :
  replace (repeat 1 t ++ repeat 0 (S m)) t 1 = repeat 1 (S t) ++ repeat 0 m.
Proof.
  change (repeat 0 (S m)) with (0 :: repeat 0 m).
  generalize (repeat 0 m) as l. intros l.
  induction t as [| t IH]; [reflexivity |].
  change (replace (repeat 1 (S t) ++ 0 :: l) (S t) 1)
    with (1 :: replace (repeat 1 t ++ 0 :: l) t 1).
  now rewrite IH.
Qed.

Lemma UCB_choose_next (self : BanditAlgorithm) (t m : nat) (g : rng) :
  policy self = UCB1 \/ policy self = UCB1Tuned ->
  num self = Z.of_nat (t + S m) ->
  displayed self = repeat 1 t ++ repeat 0 (S m) ->
  choose self g = (Ok (Z.of_nat t), g).
Proof.
  intros Hp Hnum Hdisp.
  assert (Hlen : len (displayed self) = num self).
  { unfold len. rewrite Hdisp, length_app, !repeat_length. lia. }
  assert (Hf : first_undisplayed self (range (num self))
               = Ok (Some (Z.of_nat t))).
  { apply first_undisplayed_lowest; [assumption | lia | |].
    - destruct (getitem_inrange (displayed self) (Z.of_nat t))
        as (d & Hd & Hn); [lia |].
      rewrite Nat2Z.id, Hdisp, nth_error_ones_zeros in Hn.
      rewrite Nat.ltb_irrefl in Hn.
      replace (t <? t + S m)%nat with true in Hn
        by (symmetry; apply Nat.ltb_lt; lia).
      congruence.
    - intros j Hj.
      destruct (getitem_inrange (displayed self) j) as (d & Hd & Hn);
        [lia |].
      rewrite Hdisp, nth_error_ones_zeros in Hn.
      replace (Z.to_nat j <? t)%nat with true in Hn
        by (symmetry; apply Nat.ltb_lt; lia).
      congruence. }
  unfold choose, lift, UCB1_choose, UCB1Tuned_choose.
  destruct Hp as [-> | ->]; now rewrite Hf.
Qed.

(** From a new object with [n] arms, [UCB1] and [UCB1Tuned] display each
    arm once before any arm twice, in index order and whatever the rewards:
    the first [t <= n] steps succeed and leave [displayed] at
    [[1] * t + [0] * (n - t)], and the next choice, if [t < n], is arm [t],
    made without drawing. *)
Theorem UCB_first_round (p : Policy) (n : Z) (arms : Arms) (t : nat)
    (g : rng) :
  p = UCB1 \/ p = UCB1Tuned -> Arms_num arms = n ->
  (t <= Z.to_nat n)%nat ->
  exists (ctrs : list Q) (w' : world),
    collect t (step arms) (mkWorld (BanditAlgorithm_init n p) g)
      = (Ok ctrs, w') /\
    displayed (alg w') = repeat 1 t ++ repeat 0 (Z.to_nat n - t) /\
    ((t < Z.to_nat n)%nat ->
       choose (alg w') (gen w') = (Ok (Z.of_nat t), gen w')).
Proof.
  intros Hp Harms. induction t as [| t IH]; intros Ht.
  - exists [], (mkWorld (BanditAlgorithm_init n p) g).
    split; [reflexivity |]. split.
    { simpl. now rewrite Nat.sub_0_r. }
    intros Hlt. cbn [alg gen].
    apply (UCB_choose_next _ 0 (Z.to_nat n - 1)).
    + exact Hp.
    + simpl num. lia.
    + simpl. unfold times.
      now replace (Z.to_nat n) with (S (Z.to_nat n - 1)) at 1 by lia.
  - destruct (IH ltac:(lia)) as (ctrs & w1 & Hrun & Hdisp & Hnext).
    specialize (Hnext ltac:(lia)).
    assert (Hinv : running n p (Z.of_nat t) (alg w1)).
    { destruct (collect_ok (fun t w => running n p t (alg w))
                  (fun _ : Q => True) (step arms) 1 n ltac:(lia))
        with (n := t) (t := 0) (s := mkWorld (BanditAlgorithm_init n p) g)
        as (l & w2 & Hl & _ & _ & Hr); [| lia | apply init_running |].
      - intros t0 s Ht0 Hs.
        destruct (step_ok arms n p t0 s) as (q & s' & Hq & _ & Hs');
          auto; [lia | destruct Hp as [-> | ->]; exact I | eauto].
      - rewrite Hrun in Hl. injection Hl as <- <-.
        now replace (0 + Z.of_nat t * 1) with (Z.of_nat t) in Hr by lia. }
    destruct (step_ok arms n p (Z.of_nat t) w1) as (q & w2 & Hq & _ & Hinv2);
      auto; [lia | destruct Hp as [-> | ->]; exact I |].
    destruct Hinv as (Hcons & Hnum & Hpol & _).
    pose proof (step_cases arms w1 Hcons) as Hcases.
    rewrite Hnext in Hcases.
    assert (Hlen : len (displayed (alg w1)) = n)
      by (destruct Hcons as (Hl & _); unfold len; lia).
    rewrite position_inrange, Nat2Z.id in Hcases by lia.
    destruct Hcases as (c & d & _ & Hnd & Hshape).
    rewrite Hdisp, nth_error_ones_zeros, Nat.ltb_irrefl in Hnd.
    replace (t <? t + (Z.to_nat n - t))%nat with true in Hnd
      by (symmetry; apply Nat.ltb_lt; lia).
    injection Hnd as <-. rewrite Hq in Hshape. cbn [snd] in Hshape.
    assert (Hdisp2 : displayed (alg w2)
                     = repeat 1 (S t) ++ repeat 0 (Z.to_nat n - S t)).
    { replace (Z.to_nat n - t)%nat with (S (Z.to_nat n - S t)) in Hdisp
        by lia.
      destruct Hshape as [-> | ->]; unfold clicked_once, displayed_once;
        cbn [displayed]; rewrite Hdisp; apply replace_ones_zeros. }
    exists (ctrs ++ [q]), w2. split.
    { replace (S t) with (t + 1)%nat by lia. rewrite collect_app.
      unfold bind at 1. rewrite Hrun. simpl. unfold bind, ret.
      now rewrite Hq. }
    split; [exact Hdisp2 |]. intros Hlt.
    destruct Hinv2 as (_ & Hnum2 & Hpol2 & _).
    apply (UCB_choose_next _ (S t) (Z.to_nat n - S (S t))).
    + rewrite Hpol2. exact Hp.
    + rewrite Hnum2. lia.
    + rewrite Hdisp2. f_equal. f_equal. lia.
Qed.

End FirstRound.

(** ** Edges: no arm, a bad index, no try, no step *)

Section Edges.
Context {FM : FloatModel}.

(** With no arm ([n <= 0]) every [display] fails and leaves the object as
    it was: [EGreedy] and [Random] raise [ValueError] when choosing;
    [ThomsonSampling], [UCB1] and [UCB1Tuned] choose arm 0, which the
    counters do not have, and [display] raises [IndexError]. *)
Theorem display_no_arms (p : Policy) (n : Z) (g : rng) :
  n <= 0 ->
  fst (display (mkWorld (BanditAlgorithm_init n p) g)) =
    Raise (match p with
           | EGreedy _ | Random => ValueError
           | _ => IndexError
           end) /\
  alg (snd (display (mkWorld (BanditAlgorithm_init n p) g)))
    = BanditAlgorithm_init n p.
Proof.
  intros Hn. assert (H0 : Z.to_nat n = 0%nat) by lia.
  assert (Hleb : (n <=? 0) = true) by (apply Z.leb_le; lia).
  assert (H : exists g',
            display (mkWorld (BanditAlgorithm_init n p) g) =
              (Raise (match p with
                      | EGreedy _ | Random => ValueError
                      | _ => IndexError
                      end),
               mkWorld (BanditAlgorithm_init n p) g')).
  { unfold display, bind at 1, with_gen, choose, BanditAlgorithm_init, times.
    rewrite H0. cbn [alg gen policy repeat].
    destruct p as [epsilon | | alpha beta | |].
    - rewrite EGreedy_choose_branch. cbn [num ctr].
      unfold random_randrange, range. rewrite Hleb, H0.
      destruct (Qltb epsilon (sample g 0)); eexists; reflexivity.
    - unfold Random_choose, random_randrange. cbn [num].
      rewrite Hleb. eexists; reflexivity.
    - unfold ThomsonSampling_choose, range. cbn [num].
      rewrite H0. eexists; reflexivity.
    - unfold UCB1_choose, range, lift. cbn [num].
      rewrite H0. eexists; reflexivity.
    - unfold UCB1Tuned_choose, range, lift. cbn [num].
      rewrite H0. eexists; reflexivity. }
  destruct H as (g' & ->). split; reflexivity.
Qed.

Lemma position_negative {A} (l : list A) (i : Z) :
  - len l <= i < 0 -> position l i = position l (len l + i).
Proof.
  intros H. unfold position.
  replace ((0 <=? i) && (i <? len l)) with false
    by (symmetry; apply andb_false_iff; left; apply Z.leb_gt; lia).
  replace ((- len l <=? i) && (i <? 0)) with true
    by (symmetry; apply andb_true_iff; lia).
  replace ((0 <=? len l + i) && (len l + i <? len l)) with true
    by (symmetry; apply andb_true_iff; lia).
  reflexivity.
Qed.

Lemma position_outside {A} (l : list A) (i : Z) :
  ~ - len l <= i < len l -> position l i = Raise IndexError.
Proof.
  intros H. unfold position.
  replace ((0 <=? i) && (i <? len l)) with false
    by (symmetry; apply andb_false_iff; lia).
  replace ((- len l <=? i) && (i <? 0)) with false
    by (symmetry; apply andb_false_iff; lia).
  reflexivity.
Qed.

(** [reward] does not check the arm index as [Arms.choose] does: a click
    on an index outside [[-num, num)] raises [IndexError] and changes
    nothing, but a click on a negative index [i >= -num] is taken for arm
    [num + i], as Python lists count from the end. *)
Theorem reward_index_edges (w : world) (i : Z) :
  length (clicked (alg w)) = length (displayed (alg w)) ->
  length (ctr (alg w)) = length (displayed (alg w)) ->
  (~ - len (displayed (alg w)) <= i < len (displayed (alg w)) ->
     reward i true w = (Raise IndexError, w)) /\
  (- len (displayed (alg w)) <= i < 0 ->
     reward i true w = reward (len (displayed (alg w)) + i) true w).
Proof.
  intros Hlc Hlq. split; intros Hi.
  - unfold reward, bind, load, getitem, obind.
    rewrite (position_same_length _ (displayed (alg w))) by assumption.
    now rewrite position_outside.
  - assert (Hpos : forall {A} (l : list A),
               length l = length (displayed (alg w)) ->
               position l i = position l (len (displayed (alg w)) + i)).
    { intros A l Hl.
      rewrite !(position_same_length l (displayed (alg w))) by assumption.
      now apply position_negative. }
    unfold reward, update_ctr, bind, load, store, lift, setitem, getitem,
      obind.
    rewrite <- (Hpos _ (clicked (alg w)) Hlc).
    destruct (position (clicked (alg w)) i) as [k | e]; [| reflexivity].
    destruct (nth_error (clicked (alg w)) k) as [c |]; [| reflexivity].
    cbn [alg gen set_clicked clicked displayed ctr].
    rewrite <- (Hpos _ (replace (clicked (alg w)) k (c + 1)))
      by (now rewrite replace_length).
    rewrite <- (Hpos _ (displayed (alg w)) eq_refl).
    rewrite <- (Hpos _ (ctr (alg w)) Hlq).
    reflexivity.
Qed.

Lemma collect_nothing {St A} (n : nat) (s : St) :
  collect n (ret (@nil A)) s = (Ok (repeat [] n), s).
Proof.
  induction n as [| n IH]; [reflexivity |].
  simpl. unfold bind, ret in *. now rewrite IH.
Qed.

(** The loop on its edges.  With no try and at least one step, averaging
    divides by [num_tries = 0]: [ZeroDivisionError], nothing displayed and
    nothing drawn.  With no step, the series is empty, whatever the number
    of tries, and again nothing is displayed or drawn. *)
Theorem run_alg_degenerate (arms : Arms) (maxtime num_tries : Z)
    (w : world) :
  (1 <= maxtime -> run_alg arms maxtime 0 w = (Raise ZeroDivisionError, w)) /\
  (maxtime <= 0 -> run_alg arms maxtime num_tries w = (Ok [], w)).
Proof.
  split; intros Hm.
  - unfold run_alg, tries_of, bind, lift. simpl collect. unfold ret.
    unfold range. destruct (Z.to_nat maxtime) as [| m] eqn:E; [lia |].
    reflexivity.
  - unfold run_alg, tries_of, trial, bind, lift.
    replace (Z.to_nat maxtime) with 0%nat by lia. simpl (collect 0 _).
    rewrite collect_nothing. unfold range.
    replace (Z.to_nat maxtime) with 0%nat by lia. reflexivity.
Qed.

(** What the tries record: for an algorithm with [n >= 1] arms and a ready
    policy, all [num_tries] tries succeed; each holds [maxtime] overall
    rates, every one between 0 and 1; and at the end the object has counted
    [num_tries * maxtime] displays and at most as many clicks. *)
Theorem tries_recorded (p : Policy) (n : Z) (arms : Arms)
    (maxtime num_tries : Z) (g : rng) :
  1 <= n -> Arms_num arms = n -> 0 <= maxtime -> 0 <= num_tries ->
  policy_ready p (num_tries * maxtime) ->
  exists (tries : list (list Q)) (w' : world),
    tries_of arms maxtime num_tries (mkWorld (BanditAlgorithm_init n p) g)
      = (Ok tries, w') /\
    len tries = num_tries /\
    Forall (fun ctrs => len ctrs = maxtime /\
                        Forall (fun q => (0 <= q <= 1)%Q) ctrs) tries /\
    py_sum (displayed (alg w')) = num_tries * maxtime /\
    0 <= py_sum (clicked (alg w')) <= py_sum (displayed (alg w')).
Proof.
  intros Hn Harms Hmax Htries Hready.
  destruct (tries_of_ok arms n p maxtime num_tries 0
              (mkWorld (BanditAlgorithm_init n p) g))
    as (tries & w' & Ht & Hlen & Hrows & Hcons & _ & _ & Hsum); auto;
    [apply init_running |].
  exists tries, w'. split; [exact Ht |]. split; [exact Hlen |].
  split; [exact Hrows |]. split; [lia |].
  destruct Hcons as (_ & _ & H2 & _). now apply py_sum_le.
Qed.

(** The probabilities of the arms, from percentages between 0 and 100:
    the division by [100.0] never fails, gives one probability per
    percentage, and each is between 0 and 1. *)
Theorem ps_of_percents_spec (percents : list Q) :
  Forall (fun x => (0 <= x <= 100)%Q) percents ->
  exists ps' : list Q,
    ps_of_percents percents = Ok ps' /\
    Arms_num (mkArms ps') = len percents /\
    Forall (fun q => (0 <= q <= 1)%Q) ps'.
Proof.
  induction 1 as [| x percents Hx _ (ps' & Hps & Hlen & Hall)].
  - exists []. repeat split; constructor.
  - exists (rnd (x / 100) :: ps'). simpl. rewrite Hps. split; [reflexivity |].
    split.
    + unfold Arms_num, len in *. simpl in *. lia.
    + constructor; [| assumption]. apply rnd_unit. split.
      * apply Qle_shift_div_l; lra.
      * apply Qle_shift_div_r; lra.
Qed.

End Edges.

(** ** UCB1 and UCB1Tuned: after the first round *)

Section Scores.
Context {FM : FloatModel}.

Lemma argmax_loop_spec (theta_of : Z -> outcome Q) (idx : list Z) :
  (forall i, In i idx -> exists q, theta_of i = Ok q) ->
  forall (mt : Q) (mi : Z),
  exists r : Z,
    argmax_loop theta_of idx mt mi = Ok r /\
    ((r = mi /\ forall i, In i idx -> (value (theta_of i) <= mt)%Q) \/
     (exists k, nth_error idx k = Some r /\
        (mt < value (theta_of r))%Q /\
        (forall j ij, (j < k)%nat -> nth_error idx j = Some ij ->
           (value (theta_of ij) < value (theta_of r))%Q) /\
        (forall i, In i idx ->
           (value (theta_of i) <= value (theta_of r))%Q))).
Proof.
  induction idx as [| i idx IH]; intros Hin mt mi.
  - exists mi. split; [reflexivity |]. left. split; [reflexivity |].
    intros ? [].
  - destruct (Hin i (or_introl eq_refl)) as (q & Hq).
    assert (Hin' : forall j, In j idx -> exists q, theta_of j = Ok q)
      by (intros j Hj; apply Hin; now right).
    assert (Hv : value (theta_of i) = q) by now rewrite Hq.
    simpl. rewrite Hq. simpl. destruct (Qltb mt q) eqn:E.
    + apply Qltb_lt in E.
      destruct (IH Hin' q i) as (r & Hr & Hcases). exists r.
      split; [exact Hr |]. right.
      destruct Hcases as [[-> Hall] | (k & Hk & Hgt & Hbef & Hall)].
      * exists 0%nat. split; [reflexivity |]. rewrite Hv.
        split; [assumption |]. split; [intros; lia |].
        intros j [<- | Hj]; [rewrite Hv; apply Qle_refl | now apply Hall].
      * exists (S k). split; [exact Hk |]. split; [lra |]. split.
        -- intros [| j] ij Hj Hn; simpl in Hn.
           ++ injection Hn as <-. now rewrite Hv.
           ++ apply (Hbef j); [lia | assumption].
        -- intros j [<- | Hj]; [rewrite Hv; lra | now apply Hall].
    + apply Qltb_ge in E.
      destruct (IH Hin' mt mi) as (r & Hr & Hcases). exists r.
      split; [exact Hr |].
      destruct Hcases as [[-> Hall] | (k & Hk & Hgt & Hbef & Hall)].
      * left. split; [reflexivity |].
        intros j [<- | Hj]; [now rewrite Hv | now apply Hall].
      * right. exists (S k). split; [exact Hk |]. split; [assumption |].
        split.
        -- intros [| j] ij Hj Hn; simpl in Hn.
           ++ injection Hn as <-. rewrite Hv. lra.
           ++ apply (Hbef j); [lia | assumption].
        -- intros j [<- | Hj]; [rewrite Hv; lra | now apply Hall].
Qed.

Lemma first_undisplayed_none (self : BanditAlgorithm) (idx : list Z) :
  (forall j, In j idx ->
     exists d, getitem (displayed self) j = Ok d /\ d <> 0) ->
  first_undisplayed self idx = Ok None.
Proof.
  intros H. rewrite <- (app_nil_r idx).
  now rewrite first_undisplayed_skip.
Qed.

(** Once every arm has been displayed, [UCB1.choose] and
    [UCB1Tuned.choose] compute a score for every arm without failing and,
    drawing nothing, return arm 0 if no score is above 0.0 and otherwise
    the first arm with the largest score. *)
Theorem UCB_choose_argmax (self : BanditAlgorithm) (g : rng) :
  policy self = UCB1 \/ policy self = UCB1Tuned ->
  consistent self -> 1 <= num self ->
  (forall i, 0 <= i < num self -> getitem (displayed self) i <> Ok 0) ->
  exists r : Z,
    choose self g = (Ok r, g) /\ 0 <= r < num self /\
    ((r = 0 /\ forall i, 0 <= i < num self -> (score self i <= 0)%Q) \/
     ((0 < score self r)%Q /\
      (forall j, 0 <= j < r -> (score self j < score self r)%Q) /\
      (forall j, 0 <= j < num self -> (score self j <= score self r)%Q))).
Proof.
  intros Hp Hcons Hnum Hall.
  assert (Hnz : forall j, In j (range (num self)) ->
                  exists d, getitem (displayed self) j = Ok d /\ d <> 0).
  { intros j Hj. apply range_In in Hj.
    destruct (consistent_arm self j Hcons Hj) as (c & d & q & _ & Hd & _).
    exists d. split; [assumption |]. intros ->. now apply (Hall j). }
  pose proof (first_undisplayed_none self _ Hnz) as Hnone.
  set (theta := fun i => match policy self with
                         | UCB1Tuned =>
                             UCB1Tuned_theta self (py_sum (displayed self)) i
                         | _ => UCB1_theta self (py_sum (displayed self)) i
                         end).
  assert (Hok : forall i, In i (range (num self)) ->
                  exists q, theta i = Ok q).
  { intros i Hi. pose proof (Hnz i Hi) as Hd. apply range_In in Hi.
    unfold theta. destruct Hp as [-> | ->];
      [now apply UCB1_theta_ok | now apply UCB1Tuned_theta_ok]. }
  destruct (argmax_loop_spec theta _ Hok 0%Q 0) as (r & Hr & Hcases).
  assert (Hch : choose self g = (Ok r, g)).
  { unfold choose, lift, UCB1_choose, UCB1Tuned_choose.
    unfold theta in Hr.
    destruct Hp as [Hp | Hp]; rewrite Hp in *; rewrite Hnone; simpl;
      now rewrite <- Hr. }
  exists r. split; [exact Hch |].
  destruct Hcases as [[-> Hle] | (k & Hk & Hgt & Hbef & Hle)].
  - split; [lia |]. left. split; [reflexivity |].
    intros i Hi. apply (Hle i). now apply range_In.
  - apply range_nth_error in Hk. destruct Hk as [-> Hk].
    split; [lia |]. right. split; [exact Hgt |]. split.
    + intros j Hj. apply (Hbef (Z.to_nat j) j); [lia |].
      unfold range. rewrite nth_error_map, nth_error_seq.
      replace (Z.to_nat j <? Z.to_nat (num self))%nat with true
        by (symmetry; apply Nat.ltb_lt; lia).
      simpl. now rewrite Z2Nat.id by lia.
    + intros j Hj. apply (Hle j). now apply range_In.
Qed.

End Scores.

(** ** How the loops compose *)

Section Composition.
Context {FM : FloatModel}.

Lemma collect_collect {St A} (body : M St A) (n m : nat) (s : St) :
  collect (n * m) body s =
    (ll <- collect n (collect m body) ;; ret (concat ll)) s.
Proof.
  revert s. induction n as [| n IH]; intros s; [reflexivity |].
  simpl Nat.mul. rewrite collect_app. simpl collect. unfold bind.
  destruct (collect m body s) as [[l1 | e] s1]; [| reflexivity].
  rewrite IH. unfold bind, ret.
  destruct (collect n (collect m body) s1) as [[ll | e] s2]; reflexivity.
Qed.

(** Because the object is not reset between tries, [num_tries] tries of
    [maxtime] steps are one try of [num_tries * maxtime] steps cut into
    pieces: the same displays and rewards in the same order, the same
    final object and generators, the same records (concatenated), and the
    same exception at the same point if one is raised. *)
Theorem tries_as_one_trial (arms : Arms) (maxtime num_tries : Z)
    (w : world) :
  0 <= maxtime -> 0 <= num_tries ->
  trial arms (num_tries * maxtime) w =
    (tries <- tries_of arms maxtime num_tries ;; ret (concat tries)) w.
Proof.
  intros Hm Hn. unfold trial, tries_of.
  replace (Z.to_nat (num_tries * maxtime))
    with (Z.to_nat num_tries * Z.to_nat maxtime)%nat by nia.
  apply collect_collect.
Qed.

(** The algorithms share nothing but the generators: running the list
    [algs1 ++ algs2] is running [algs1] and then [algs2] from the generators
    [algs1] has left, the table being the two tables in a row; an exception
    in [algs1] ends the run before [algs2] starts. *)
Theorem run_app (arms : Arms) (maxtime num_tries : Z)
    (algs1 algs2 : list BanditAlgorithm) (g : rng) :
  run arms maxtime num_tries (algs1 ++ algs2) g =
    (table1 <- run arms maxtime num_tries algs1 ;;
     table2 <- run arms maxtime num_tries algs2 ;;
     ret (table1 ++ table2)) g.
Proof.
  revert g. induction algs1 as [| a algs1 IH]; intros g.
  - simpl. unfold bind, ret.
    destruct (run arms maxtime num_tries algs2 g) as [[t | e] g'];
      reflexivity.
  - simpl. unfold bind. cbv beta.
    destruct (run_alg arms maxtime num_tries (mkWorld a g))
      as [[ctrs | e] w1]; [| reflexivity].
    rewrite IH. unfold bind, ret.
    destruct (run arms maxtime num_tries algs1 (gen w1)) as [[t1 | e] g1];
      [| reflexivity].
    destruct (run arms maxtime num_tries algs2 g1) as [[t2 | e] g2];
      reflexivity.
Qed.

End Composition.

(** ** The further statements at work, in exact arithmetic *)

Lemma warmed_consistent (p : Policy) : consistent (warmed p).
Proof.
  unfold consistent, warmed; simpl.
  split; [reflexivity |]. split; [reflexivity |]. split.
  - repeat constructor; lia.
  - repeat constructor; unfold Qle; simpl; lia.
Qed.

Lemma Arms_choose_spec_witness :
  Arms_choose three_arms 5 (mkRng sevenths 0)
    = (Raise AssertionError, mkRng sevenths 0) /\
  exists p : Q,
    getitem (ps three_arms) 1 = Ok p /\
    Arms_choose three_arms 1 (mkRng sevenths 0)
      = (Ok (Qltb (sample (mkRng sevenths 0) 0) p),
         after_draws (mkRng sevenths 0) 1) /\
    ((p <= 0)%Q -> Qltb (sample (mkRng sevenths 0) 0) p = false) /\
    ((1 <= p)%Q -> Qltb (sample (mkRng sevenths 0) 0) p = true).
Proof.
  split.
  - apply (proj1 (Arms_choose_spec three_arms 5 (mkRng sevenths 0))).
    unfold Arms_num, len; simpl; lia.
  - apply (proj2 (Arms_choose_spec three_arms 1 (mkRng sevenths 0))).
    unfold Arms_num, len; simpl; lia.
Defined.

Lemma Random_choose_spec_witness :
  Random_choose (BanditAlgorithm_init 0 Random) (mkRng sevenths 0)
    = (Raise ValueError, mkRng sevenths 0) /\
  exists i : Z,
    Random_choose (BanditAlgorithm_init 3 Random) (mkRng sevenths 0)
      = (Ok i, after_draws (mkRng sevenths 0) 1) /\
    0 <= i < 3.
Proof.
  split.
  - apply (proj1 (Random_choose_spec (BanditAlgorithm_init 0 Random)
                    (mkRng sevenths 0))).
    simpl; lia.
  - apply (proj2 (Random_choose_spec (BanditAlgorithm_init 3 Random)
                    (mkRng sevenths 0))).
    simpl; lia.
Defined.

Lemma EGreedy_exploit_maximal_witness :
  exists (i : Z) (x : Q),
    EGreedy_choose (warmed (EGreedy (1 # 2))) (1 # 2) (mkRng sevenths 0)
      = (Ok i, after_draws (mkRng sevenths 0) 2) /\
    0 <= i < 3 /\
    getitem [1%Q; 0%Q; 0%Q] i = Ok x /\
    forall (j : Z) (y : Q), getitem [1%Q; 0%Q; 0%Q] j = Ok y -> (y <= x)%Q.
Proof.
  apply (EGreedy_exploit_maximal (warmed (EGreedy (1 # 2))) (1 # 2)
           (mkRng sevenths 0)).
  - reflexivity.
  - simpl; lia.
  - vm_compute. discriminate.
Defined.

Lemma display_effect_witness :
  exists (i : Z) (g' : rng) (c d : Z),
    choose (FM := exact_float) (alg (example_world UCB1))
        (gen (example_world UCB1)) = (Ok i, g') /\
    0 <= i < num (alg (example_world UCB1)) /\
    getitem (clicked (alg (example_world UCB1))) i = Ok c /\
    getitem (displayed (alg (example_world UCB1))) i = Ok d /\
    display (FM := exact_float) (example_world UCB1) =
      (Ok i,
       mkWorld (mkAlg (num (alg (example_world UCB1)))
                      (replace (displayed (alg (example_world UCB1)))
                               (Z.to_nat i) (d + 1))
                      (clicked (alg (example_world UCB1)))
                      (replace (ctr (alg (example_world UCB1))) (Z.to_nat i)
                               (rnd (inject_Z c / inject_Z (d + 1))))
                      (policy (alg (example_world UCB1))))
               g').
Proof.
  apply (display_effect (FM := exact_float) (example_world UCB1)).
  - apply init_running.
  - simpl; lia.
  - exact I.
Defined.

Lemma UCB_first_round_witness :
  exists (ctrs : list Q) (w' : world),
    collect 2 (step (FM := exact_float) three_arms) (example_world UCB1)
      = (Ok ctrs, w') /\
    displayed (alg w') = repeat 1 2 ++ repeat 0 (Z.to_nat 3 - 2) /\
    ((2 < Z.to_nat 3)%nat ->
       choose (FM := exact_float) (alg w') (gen w')
         = (Ok (Z.of_nat 2), gen w')).
Proof.
  apply (UCB_first_round (FM := exact_float) UCB1 3 three_arms 2
           (mkRng sevenths 0)).
  - left; reflexivity.
  - reflexivity.
  - simpl; lia.
Defined.

Lemma display_no_arms_witness :
  fst (display (FM := exact_float)
         (mkWorld (BanditAlgorithm_init 0 UCB1) (mkRng sevenths 0)))
    = Raise IndexError /\
  alg (snd (display (FM := exact_float)
              (mkWorld (BanditAlgorithm_init 0 UCB1) (mkRng sevenths 0))))
    = BanditAlgorithm_init 0 UCB1.
Proof.
  apply (display_no_arms (FM := exact_float) UCB1 0 (mkRng sevenths 0)). lia.
Defined.

Lemma reward_index_edges_witness :
  reward (FM := exact_float) 7 true (example_world UCB1)
    = (Raise IndexError, example_world UCB1) /\
  reward (FM := exact_float) (-1) true (example_world UCB1)
    = reward (len (displayed (alg (example_world UCB1))) + -1) true
        (example_world UCB1).
Proof.
  split.
  - apply (proj1 (reward_index_edges (FM := exact_float)
                    (example_world UCB1) 7 eq_refl eq_refl)).
    unfold len; simpl; lia.
  - apply (proj2 (reward_index_edges (FM := exact_float)
                    (example_world UCB1) (-1) eq_refl eq_refl)).
    unfold len; simpl; lia.
Defined.

Lemma run_alg_degenerate_witness :
  run_alg (FM := exact_float) three_arms 2 0 (example_world UCB1)
    = (Raise ZeroDivisionError, example_world UCB1) /\
  run_alg (FM := exact_float) three_arms 0 3 (example_world UCB1)
    = (Ok [], example_world UCB1).
Proof.
  split.
  - apply (proj1 (run_alg_degenerate (FM := exact_float) three_arms 2 0
                    (example_world UCB1))). lia.
  - apply (proj2 (run_alg_degenerate (FM := exact_float) three_arms 0 3
                    (example_world UCB1))). lia.
Defined.

Lemma tries_recorded_witness :
  exists (tries : list (list Q)) (w' : world),
    tries_of (FM := exact_float) three_arms 2 2
        (mkWorld (BanditAlgorithm_init 3 (ThomsonSampling 1 1))
                 (mkRng sevenths 0))
      = (Ok tries, w') /\
    len tries = 2 /\
    Forall (fun ctrs => len ctrs = 2 /\
                        Forall (fun q => (0 <= q <= 1)%Q) ctrs) tries /\
    py_sum (displayed (alg w')) = 2 * 2 /\
    0 <= py_sum (clicked (alg w')) <= py_sum (displayed (alg w')).
Proof.
  apply (tries_recorded (FM := exact_float) (ThomsonSampling 1 1) 3
           three_arms 2 2 (mkRng sevenths 0)); try lia.
  - reflexivity.
  - simpl. repeat split; try lia; unfold Qle; simpl; lia.
Defined.

Lemma ps_of_percents_spec_witness :
  exists ps' : list Q,
    ps_of_percents (FM := exact_float) [10; 50; 90]%Q = Ok ps' /\
    Arms_num (mkArms ps') = len [10; 50; 90]%Q /\
    Forall (fun q => (0 <= q <= 1)%Q) ps'.
Proof.
  apply (ps_of_percents_spec (FM := exact_float) [10; 50; 90]%Q).
  repeat constructor; unfold Qle; simpl; lia.
Defined.

Lemma UCB_choose_argmax_witness :
  exists r : Z,
    choose (FM := exact_float) (warmed UCB1) (mkRng sevenths 0)
      = (Ok r, mkRng sevenths 0) /\
    0 <= r < 3 /\
    ((r = 0 /\
      forall i, 0 <= i < 3 ->
        (score (FM := exact_float) (warmed UCB1) i <= 0)%Q) \/
     ((0 < score (FM := exact_float) (warmed UCB1) r)%Q /\
      (forall j, 0 <= j < r ->
         (score (FM := exact_float) (warmed UCB1) j
          < score (FM := exact_float) (warmed UCB1) r)%Q) /\
      (forall j, 0 <= j < 3 ->
         (score (FM := exact_float) (warmed UCB1) j
          <= score (FM := exact_float) (warmed UCB1) r)%Q))).
Proof.
  apply (UCB_choose_argmax (FM := exact_float) (warmed UCB1)
           (mkRng sevenths 0)).
  - left; reflexivity.
  - apply warmed_consistent.
  - simpl; lia.
  - intros i Hi. simpl in Hi.
    assert (H : i = 0 \/ i = 1 \/ i = 2) by lia.
    destruct H as [-> | [-> | ->]]; discriminate.
Defined.

Lemma tries_as_one_trial_witness :
  trial (FM := exact_float) three_arms (2 * 2) (example_world UCB1) =
    (tries <- tries_of three_arms 2 2 ;; ret (concat tries))
      (example_world UCB1).
Proof.
  apply (tries_as_one_trial (FM := exact_float) three_arms 2 2
           (example_world UCB1)); lia.
Defined.
